(** * cortex/tarball_helper.py: scanner, resolver and tracker

    A shallow embedding of [TarballHelper] and the properties of its
    dependency scanner ([analyze], [_parse_dependencies]), its package
    resolver ([suggest_apt_packages]) and its package tracker ([track],
    [cleanup], [install_deps], [_load_tracked_packages],
    [_save_tracked_packages]).

    Conventions of the embedding.
    - Text is [string] over 8-bit [ascii].  The character classes and
      [str.lower] follow Python on code points below 128, the alphabet build
      descriptors are written in; no character above 127 is a word character
      here, and [lower] leaves it alone.
    - A Python [set] of strings is a [gset string]; [list(s)] is [elements s],
      whose order is fixed but carries no meaning, as in Python.
    - A Python [dict] keyed by strings is a [gmap string string].
    - Exceptions are values of [result].
    - The tracker threads one record through every method: the list held by
      the object, the persisted file, and the trace of everything the method
      did to the outside world (console lines, child processes, file
      writes). *)

From Stdlib Require Import ZArith NArith Ascii.
From stdpp Require Import gmap strings list.

Set Warnings "-register-all".

(** ** Exceptions *)

Inductive exn :=
  | OSError             (* open() on a file that cannot be read *)
  | JSONDecodeError     (* json.load on text that is not JSON *)
  | AttributeError.     (* .get on a value that is not a dict *)

Inductive result (A : Type) :=
  | Ok (a : A)
  | Raise (e : exn).
Arguments Ok {A} a.
Arguments Raise {A} e.

Definition bind {A B} (r : result A) (f : A → result B) : result B :=
  match r with
  | Ok a => f a
  | Raise e => Raise e
  end.

Definition rmap {A B} (f : A → B) (r : result A) : result B :=
  bind r (λ a, Ok (f a)).

(** ** Characters *)

Definition code (c : ascii) : N := N_of_ascii c.

Definition between (lo hi : N) (c : ascii) : bool :=
  ((lo <=? code c) && (code c <=? hi))%N.

Definition is_upper (c : ascii) : bool := between 65 90 c.
Definition is_lower (c : ascii) : bool := between 97 122 c.
Definition is_digit (c : ascii) : bool := between 48 57 c.

(** [\w] *)
Definition is_word (c : ascii) : bool :=
  is_lower c || is_upper c || is_digit c || Ascii.eqb c "_"%char.

(** The class of the two quote characters, single (39) and double (34). *)
Definition is_quote (c : ascii) : bool :=
  Ascii.eqb c "039"%char || Ascii.eqb c "034"%char.

(** [[\w\-]] *)
Definition is_word_or_hyphen (c : ascii) : bool :=
  is_word c || Ascii.eqb c "-"%char.

(** [.]: every character under [re.DOTALL], every character but the newline
    without it. *)
Definition dot (dotall : bool) (c : ascii) : bool :=
  dotall || negb (Ascii.eqb c "010"%char).

Definition lower_char (c : ascii) : ascii :=
  if is_upper c then ascii_of_N (code c + 32) else c.

(** [str.lower] *)
Fixpoint lower (s : string) : string :=
  match s with
  | "" => ""
  | String c s' => String (lower_char c) (lower s')
  end.

Fixpoint all_chars (p : ascii → bool) (s : string) : bool :=
  match s with
  | "" => true
  | String c s' => p c && all_chars p s'
  end.

(** ** The regular expressions of [_parse_dependencies]

    A backtracking matcher for the fragment of [re] the program uses: a
    pattern is a sequence of atoms, each marked as inside or outside the
    single capture group.  Quantifiers apply to one-character atoms only,
    which is all the patterns of the source need. *)

Inductive atom :=
  | Chr (c : ascii)                (* a literal character *)
  | One (p : ascii → bool)         (* one character of a class *)
  | Opt (p : ascii → bool)         (* [x?], greedy *)
  | Plus (p : ascii → bool)        (* [x+], greedy *)
  | StarLazy (p : ascii → bool).   (* [x*?] *)

(** [(true, a)]: [a] is inside the capture group. *)
Definition item : Type := bool * atom.
Definition pattern : Type := list item.

(** A match is the text of group 1 and the text left after the match. *)
Definition found : Type := string * string.

Definition keep (g : bool) (x : ascii) (r : option found) : option found :=
  match r with
  | Some (cap, rest) => Some (if g then String x cap else cap, rest)
  | None => None
  end.

(** After the first repetition of [x+]: as many more as possible, giving
    one back at a time while the continuation [k] fails. *)
Fixpoint greedy (p : ascii → bool) (g : bool) (k : string → option found)
    (s : string) : option found :=
  match s with
  | String x s' =>
      if p x then
        match keep g x (greedy p g k s') with
        | Some r => Some r
        | None => k s
        end
      else k s
  | "" => k s
  end.

(** [x*?]: as few repetitions as the continuation [k] allows. *)
Fixpoint lazy (p : ascii → bool) (g : bool) (k : string → option found)
    (s : string) : option found :=
  match k s with
  | Some r => Some r
  | None =>
      match s with
      | String x s' => if p x then keep g x (lazy p g k s') else None
      | "" => None
      end
  end.

(** A match of [pat] that starts at the first character of [s]. *)
Fixpoint match_at (pat : pattern) (s : string) {struct pat} : option found :=
  match pat with
  | [] => Some ("", s)
  | (g, a) :: pat' =>
      match a with
      | Chr c =>
          match s with
          | String x s' =>
              if Ascii.eqb x c then keep g x (match_at pat' s') else None
          | "" => None
          end
      | One p =>
          match s with
          | String x s' => if p x then keep g x (match_at pat' s') else None
          | "" => None
          end
      | Opt p =>
          match s with
          | String x s' =>
              if p x then
                match keep g x (match_at pat' s') with
                | Some r => Some r
                | None => match_at pat' s
                end
              else match_at pat' s
          | "" => match_at pat' s
          end
      | Plus p =>
          match s with
          | String x s' =>
              if p x then keep g x (greedy p g (match_at pat') s') else None
          | "" => None
          end
      | StarLazy p => lazy p g (match_at pat') s
      end
  end.

(** [re.findall] for a pattern with one group: the scan tries every position
    from left to right, and after a match resumes where the match ended.
    [skip] counts the characters of the last match still to be passed over.
    No pattern of this program matches the empty string, the one case in
    which Python's scan does more than move on by one character. *)
Fixpoint findall_from (pat : pattern) (skip : nat) (s : string) : list string :=
  match s with
  | "" => []
  | String _ s' =>
      match skip with
      | S k => findall_from pat k s'
      | 0 =>
          match match_at pat s with
          | Some (cap, rest) =>
              cap :: findall_from pat
                       (String.length s - String.length rest - 1) s'
          | None => findall_from pat 0 s'
          end
      end
  end.

Definition findall (pat : pattern) (s : string) : list string :=
  findall_from pat 0 s.

(** A pattern that cannot match without consuming a character. *)
Definition opens_with_a_character (pat : pattern) : Prop :=
  match pat with
  | (_, Chr _) :: _ | (_, One _) :: _ => True
  | _ => False
  end.

(** A literal piece of a pattern, outside the group. *)
Fixpoint lit (s : string) : pattern :=
  match s with
  | "" => []
  | String c s' => (false, Chr c) :: lit s'
  end.

(** [find_package\((\w+)] *)
Definition cmake_re : pattern := lit "find_package(" ++ [(true, Plus is_word)].
(** [dependency\(Q(\w+)], with [Q] the class of the two quotes *)
Definition meson_re : pattern :=
  lit "dependency(" ++ [(false, One is_quote); (true, Plus is_word)].
(** [AC_CHECK_LIB\(\[?(\w+)] *)
Definition autoconf_re : pattern :=
  lit "AC_CHECK_LIB(" ++ [(false, Opt (Ascii.eqb "["%char)); (true, Plus is_word)].
(** [-l(\w+)] *)
Definition makefile_re : pattern := lit "-l" ++ [(true, Plus is_word)].
(** [install_requires=\[(.*?)\]], under the flags of the call *)
Definition setup_re (dotall : bool) : pattern :=
  lit "install_requires=[" ++ [(true, StarLazy (dot dotall))] ++ lit "]".
(** [Q([\w\-]+)Q], with [Q] the class of the two quotes *)
Definition quoted_re : pattern :=
  [(false, One is_quote); (true, Plus is_word_or_hyphen); (false, One is_quote)].

(** ** The dependency scanner *)

(** The dict [patterns]; every lookup is followed by
    [re.findall(..., re.DOTALL)]. *)
Definition patterns (fname : string) : option pattern :=
  if String.eqb fname "CMakeLists.txt" then Some cmake_re
  else if String.eqb fname "meson.build" then Some meson_re
  else if String.eqb fname "configure.ac" then Some autoconf_re
  else if String.eqb fname "Makefile" then Some makefile_re
  else if String.eqb fname "setup.py" then Some (setup_re true)
  else None.

(** [deps.update(xs)] *)
Definition update (deps : gset string) (xs : list string) : gset string :=
  deps ∪ list_to_set xs.

Definition _parse_dependencies (fname content : string) : list string :=
  let deps : gset string :=
    match patterns fname with
    | Some pat =>
        let matches := findall pat content in
        if String.eqb fname "setup.py" then
          foldl (λ deps m, update deps (findall quoted_re m)) ∅ matches
        else update ∅ matches
    | None => ∅
    end in
  elements deps.

(** The tuple of file names [analyze] looks for. *)
Definition recognised (fname : string) : bool :=
  String.eqb fname "CMakeLists.txt" || String.eqb fname "configure.ac"
  || String.eqb fname "meson.build" || String.eqb fname "Makefile"
  || String.eqb fname "setup.py".

(** What is found at a path: a file, with its text as [open] decodes it
    under [errors=ignore], or [None] when it cannot be opened; or a directory
    with its entries in the order the system lists them. *)
Inductive node :=
  | File (content : option string)
  | Dir (entries : list (string * node)).

Definition filesystem : Type := string → option node.

(** The files of one directory, as [(name, content)]. *)
Fixpoint files_of (entries : list (string * node))
    : list (string * option string) :=
  match entries with
  | [] => []
  | (name, File content) :: es => (name, content) :: files_of es
  | (_, Dir _) :: es => files_of es
  end.

(** [os.walk], top down: one element per directory visited, holding the
    files of that directory.  A root that is not a directory is visited by
    no one. *)
Fixpoint walk (n : node) : list (list (string * option string)) :=
  match n with
  | File _ => []
  | Dir entries =>
      files_of entries ::
      (fix below (es : list (string * node)) :=
         match es with
         | [] => []
         | (_, child) :: es' => walk child ++ below es'
         end) entries
  end.

(** [os.walk(path)] leaves [onerror] unset: a root that is missing or is not
    a directory yields nothing. *)
Definition os_walk (fs : filesystem) (path : string)
    : list (list (string * option string)) :=
  match fs path with
  | Some n => walk n
  | None => []
  end.

(** The body of the inner loop of [analyze] for one file. *)
Definition visit (deps : gset string) (f : string * option string)
    : result (gset string) :=
  let '(fname, content) := f in
  if recognised fname then
    match content with
    | Some text => Ok (update deps (_parse_dependencies fname text))
    | None => Raise OSError
    end
  else Ok deps.

Fixpoint visit_all (deps : gset string) (fs : list (string * option string))
    : result (gset string) :=
  match fs with
  | [] => Ok deps
  | f :: fs' => bind (visit deps f) (λ deps', visit_all deps' fs')
  end.

Definition analyze (fs : filesystem) (path : string) : result (list string) :=
  rmap elements (visit_all ∅ (concat (os_walk fs path))).

(** ** Shapes of descriptor text, for stating what the scanner finds *)

(** [s.startswith(needle)] *)
Fixpoint starts_with (needle s : string) : bool :=
  match needle, s with
  | "", _ => true
  | String c n', String x s' => Ascii.eqb x c && starts_with n' s'
  | String _ _, "" => false
  end.

(** [s.find(needle)], with [None] where Python returns -1. *)
Fixpoint find (needle s : string) : option nat :=
  if starts_with needle s then Some 0
  else
    match s with
    | "" => None
    | String _ s' => S <$> find needle s'
    end.

(** Whether [s] begins with a character of the class [p]. *)
Definition head_in (p : ascii → bool) (s : string) : bool :=
  match s with
  | String c _ => p c
  | "" => false
  end.

Definition nonempty (s : string) : bool :=
  match s with
  | "" => false
  | String _ _ => true
  end.

(** A package name the CMake pattern captures whole: a non-empty run of word
    characters. *)
Definition identifier (X : string) : bool :=
  nonempty X && all_chars is_word X.

(** No [needle] begins inside [gap], not even one that runs over into a
    [needle] placed right after it. *)
Definition quiet (needle gap : string) : bool :=
  bool_decide (find needle (gap +:+ needle) = Some (String.length gap)).

(** A CMake manifest read as calls: [(X, after)] stands for [find_package(]
    followed by the name [X] and by the text [after], which runs up to the
    next call or to the end of the file. *)
Definition call_text (call : string * string) : string :=
  "find_package(" +:+ call.1 +:+ call.2.

Fixpoint calls_text (calls : list (string * string)) : string :=
  match calls with
  | [] => ""
  | call :: calls' => call_text call +:+ calls_text calls'
  end.

(** The name is a non-empty run of word characters, the text after it opens
    with a character that ends the run, such as the closing parenthesis, and
    holds no further [find_package(]. *)
Definition cmake_call_ok (call : string * string) : bool :=
  identifier call.1
  && head_in (λ c, negb (is_word c)) call.2
  && quiet "find_package(" call.2.

(** One element of a list literal: the text before it, its opening quote,
    the text between the quotes, and its closing quote. *)
Record token := Token {
  before : string;
  opening : ascii;
  quoted : string;
  closing : ascii
}.

(** The inside of a list literal: tokens, then [tail] up to the bracket. *)
Fixpoint list_text (tokens : list token) (tail : string) : string :=
  match tokens with
  | [] => tail
  | t :: ts =>
      before t +:+
      String (opening t) (quoted t +:+ String (closing t) (list_text ts tail))
  end.

Definition not_bracket (c : ascii) : bool := negb (Ascii.eqb c "]"%char).

(** Text between tokens: no quote and no closing bracket. *)
Definition filler (c : ascii) : bool := negb (is_quote c) && not_bracket c.

(** A token the second pattern captures whole: between two quotes, a
    non-empty run of word characters and hyphens. *)
Definition token_ok (t : token) : bool :=
  all_chars filler (before t) && is_quote (opening t)
  && nonempty (quoted t) && all_chars is_word_or_hyphen (quoted t)
  && is_quote (closing t).

(** ** Sample trees *)

Definition newline : string := String "010"%char "".

(** The manifest of [test_analyze_cmake]. *)
Definition openssl_zlib_manifest : string :=
  newline +:+ "    find_package(OpenSSL)" +:+
  newline +:+ "    find_package(ZLIB)" +:+
  newline +:+ "    ".

Definition openssl_zlib_tree : node :=
  Dir [("README.md", File (Some "build me"));
       ("CMakeLists.txt", File (Some openssl_zlib_manifest))].

Definition openssl_zlib_fs : filesystem :=
  λ path, if String.eqb path "/src" then Some openssl_zlib_tree else None.

(** A manifest with one call, for a package whose name has a hyphen. *)
Definition yaml_cpp_fs : filesystem :=
  λ path,
    if String.eqb path "/src" then
      Some (Dir [("CMakeLists.txt", File (Some "find_package(yaml-cpp)"))])
    else None.

(** A manifest with one call, next to a Makefile. *)
Definition zlib_with_makefile_fs : filesystem :=
  λ path,
    if String.eqb path "/src" then
      Some (Dir [("CMakeLists.txt", File (Some "find_package(ZLIB)"));
                 ("Makefile", File (Some "LDLIBS = -lm"))])
    else None.

(** The tree of [test_analyze_meson]. *)
Definition meson_fs : filesystem :=
  λ path,
    if String.eqb path "/src" then
      Some (Dir [("meson.build",
                  File (Some ("dependency('libcurl')" +:+ newline +:+
                              "dependency('zlib')")))])
    else None.

(** A packaging script with one requirement that carries a version. *)
Definition versioned_setup : string :=
  "setup(name='demo', install_requires=['requests>=2.0'])".

(** ** The package resolver *)

(** The body of the loop of [suggest_apt_packages]. *)
Definition assign (mapping : gmap string string) (dep : string)
    : gmap string string :=
  let pkg := "lib" +:+ lower dep +:+ "-dev" in
  <[dep := pkg]> mapping.

Definition suggest_apt_packages (deps : list string) : gmap string string :=
  foldl assign ∅ deps.

(** ** The package tracker *)

(** A parsed JSON document.  Numbers keep their literal; the members of an
    object are kept in the order of the text. *)
Inductive json :=
  | JNull
  | JBool (b : bool)
  | JNum (literal : string)
  | JStr (s : string)
  | JArr (items : list json)
  | JObj (members : list (string * json)).

(** [MANUAL_TRACK_FILE] as the tracker finds it. *)
Inductive file_state :=
  | Absent
  | Unparsable             (* text that [json.load] rejects *)
  | Holds (doc : json).

(** [d.get(key)] on the dict [json.load] builds from an object: of two members
    with one key the later one stays. *)
Fixpoint dict_get (members : list (string * json)) (key : string)
    : option json :=
  match members with
  | [] => None
  | (k, v) :: ms =>
      match dict_get ms key with
      | Some v' => Some v'
      | None => if String.eqb k key then Some v else None
      end
  end.

Definition _load_tracked_packages (f : file_state) : result json :=
  match f with
  | Absent => Ok (JArr [])
  | Unparsable => Raise JSONDecodeError
  | Holds (JObj members) => Ok (default (JArr []) (dict_get members "packages"))
  | Holds _ => Raise AttributeError
  end.

(** The document that [json.dump] writes: one member, [packages]. *)
Definition packages_doc (tracked : list string) : json :=
  JObj [("packages", JArr (JStr <$> tracked))].

(** A loaded value read at the annotated type [list[str]]. *)
Definition as_str (j : json) : option string :=
  match j with
  | JStr s => Some s
  | _ => None
  end.

Definition as_packages (j : json) : option (list string) :=
  match j with
  | JArr items => mapM as_str items
  | _ => None
  end.

(** What a method does to the outside world. *)
Inductive event :=
  | Console (line : string)                   (* console.print *)
  | Spawn (argv : list string) (status : Z)   (* subprocess.run, check=False *)
  | Mkdir                                     (* parent.mkdir(parents, exist_ok) *)
  | Dump (doc : json).                        (* json.dump into the file *)

Record helper := Helper {
  tracked_packages : list string;
  track_file : file_state;
  trace : list event
}.

(** [TarballHelper()]: the object [__init__] builds when the load returns a
    list of strings; [None] when the load raises or returns a value outside
    [list[str]], on which the tracker is not modelled. *)
Definition new_helper (f : file_state) : option helper :=
  match _load_tracked_packages f with
  | Ok j => (λ l, Helper l f []) <$> as_packages j
  | Raise _ => None
  end.

Definition emit (e : event) (h : helper) : helper :=
  Helper (tracked_packages h) (track_file h) (trace h ++ [e]).

Definition _save_tracked_packages (h : helper) : helper :=
  let doc := packages_doc (tracked_packages h) in
  Helper (tracked_packages h) (Holds doc) (trace h ++ [Mkdir; Dump doc]).

Definition track (pkg : string) (h : helper) : helper :=
  if decide (pkg ∈ tracked_packages h) then h
  else
    let h1 := Helper (tracked_packages h ++ [pkg]) (track_file h) (trace h) in
    let h2 := _save_tracked_packages h1 in
    emit (Console ("[green]Tracked:[/green] " +:+ pkg)) h2.

Section PackageManager.

(** The package manager: the exit status of a child process, given
    everything that happened before it and its argument vector.  With
    [check=False] no status raises. *)
Variable apt : list event → list string → Z.

Definition subprocess_run (argv : list string) (h : helper) : helper :=
  emit (Spawn argv (apt (trace h) argv)) h.

Definition install_step (h : helper) (pkg : string) : helper :=
  let h1 := emit (Console ("[cyan]Installing:[/cyan] " +:+ pkg)) h in
  let h2 := subprocess_run ["sudo"; "apt-get"; "install"; "-y"; pkg] h1 in
  track pkg h2.

Definition install_deps (pkgs : list string) (h : helper) : helper :=
  foldl install_step h pkgs.

Definition remove_step (h : helper) (pkg : string) : helper :=
  let h1 := emit (Console ("[yellow]Removing:[/yellow] " +:+ pkg)) h in
  subprocess_run ["sudo"; "apt-get"; "remove"; "-y"; pkg] h1.

Definition cleanup (h : helper) : helper :=
  let h1 := foldl remove_step h (tracked_packages h) in
  let h2 := Helper [] (track_file h1) (trace h1) in
  let h3 := _save_tracked_packages h2 in
  emit (Console "[green]Cleanup complete.[/green]") h3.

End PackageManager.

(** The writes among the events of a trace. *)
Definition writes (t : list event) : list json :=
  omap (λ e, match e with Dump doc => Some doc | _ => None end) t.

(** The child processes among the events of a trace. *)
Definition commands (t : list event) : list (list string) :=
  omap (λ e, match e with Spawn argv _ => Some argv | _ => None end) t.

(** The number of entries of a list equal to [pkg]. *)
Definition entries (pkg : string) (l : list string) : nat :=
  length (filter (λ x, x = pkg) l).

(** The list a later run of the tool starts from, when it starts at all. *)
Definition stored_packages (f : file_state) : option (list string) :=
  tracked_packages <$> new_helper f.

(** No package twice, neither in the list of the object nor in the list the
    file holds for the next run. *)
Definition duplicate_free (h : helper) : Prop :=
  NoDup (tracked_packages h)
  ∧ ∀ l, stored_packages (track_file h) = Some l → NoDup l.

(** Two trackers with the same list and the same file. *)
Definition same_store (h1 h2 : helper) : Prop :=
  tracked_packages h1 = tracked_packages h2 ∧ track_file h1 = track_file h2.

(** ** Further shapes of descriptor text *)

(** A place where a pattern that opens with a literal finds a name: the text
    the pattern passes over between the literal and the name, the name, and
    the text after the name, up to the next place or to the end. *)
Definition site : Type := string * string * string.

Definition site_text (n : string) (s : site) : string :=
  n +:+ s.1.1 +:+ s.1.2 +:+ s.2.

Fixpoint sites_text (n : string) (sites : list site) : string :=
  match sites with
  | [] => ""
  | s :: sites' => site_text n s +:+ sites_text n sites'
  end.

Definition site_names (sites : list site) : list string :=
  (λ s : site, s.1.2) <$> sites.

(** The name is a non-empty run of word characters, what follows it does not
    prolong the run, and no further literal begins in the text after it. *)
Definition site_ok (n : string) (opener : string → bool) (s : site) : bool :=
  opener s.1.1 && identifier s.1.2
  && negb (head_in is_word (s.2 +:+ n)) && quiet n s.2.

(** Nothing between the literal and the name. *)
Definition no_opener (o : string) : bool := negb (nonempty o).

(** One quote, of either kind, between the literal and the name. *)
Definition quote_opener (o : string) : bool :=
  match o with
  | String q "" => is_quote q
  | _ => false
  end.

(** Nothing, or one opening bracket, between the literal and the name. *)
Definition bracket_opener (o : string) : bool :=
  String.eqb o "" || String.eqb o "[".

(** The literal the pattern of each descriptor opens with. *)
Definition literal_of (fname : string) : option string :=
  if String.eqb fname "CMakeLists.txt" then Some "find_package("
  else if String.eqb fname "meson.build" then Some "dependency("
  else if String.eqb fname "configure.ac" then Some "AC_CHECK_LIB("
  else if String.eqb fname "Makefile" then Some "-l"
  else if String.eqb fname "setup.py" then Some "install_requires=["
  else None.

(** Every character the group of [pat] can take is in the class [p]. *)
Fixpoint captures (p : ascii → bool) (pat : pattern) : Prop :=
  match pat with
  | [] => True
  | (false, _) :: pat' => captures p pat'
  | (true, a) :: pat' =>
      match a with
      | Chr c => p c = true
      | One q | Opt q | Plus q | StarLazy q => ∀ c, q c = true → p c = true
      end ∧ captures p pat'
  end.

(** The group of [pat] takes at least one character in every match. *)
Fixpoint grabs (pat : pattern) : Prop :=
  match pat with
  | [] => False
  | (g, a) :: pat' =>
      match g, a with
      | true, (Chr _ | One _ | Plus _) => True
      | _, _ => grabs pat'
      end
  end.

(** The package the resolver guesses for a name, the f-string of
    [suggest_apt_packages]. *)
Definition package_of (dep : string) : string := "lib" +:+ lower dep +:+ "-dev".

(** ** The command line *)

(** [d[k] = v] on a dict, as the list of its items in insertion order: a key
    already present keeps its place and takes the new value. *)
Fixpoint dict_set (items : list (string * string)) (k v : string)
    : list (string * string) :=
  match items with
  | [] => [(k, v)]
  | (k', v') :: items' =>
      if String.eqb k' k then (k', v) :: items'
      else (k', v') :: dict_set items' k v
  end.

(** [mapping.items()] for the dict [suggest_apt_packages] returns, in the
    order Python iterates it. *)
Definition mapping_items (deps : list string) : list (string * string) :=
  foldl (λ items dep, dict_set items dep ("lib" +:+ lower dep +:+ "-dev"))
        [] deps.

(** The rows of the table of the [analyze] command. *)
Definition main_analyze (fs : filesystem) (path : string)
    : result (list (string * string)) :=
  rmap mapping_items (analyze fs path).

Section CommandLine.

Variable apt : list event → list string → Z.

(** The [install-deps] command, from the helper [main] has built. *)
Definition main_install_deps (fs : filesystem) (path : string) (h : helper)
    : result helper :=
  bind (analyze fs path)
       (λ deps, Ok (install_deps apt (mapping_items deps).*2 h)).

(** The [cleanup] command. *)
Definition main_cleanup (h : helper) : helper := cleanup apt h.

End CommandLine.

(** The file holds what the object holds: a tracker started from the file
    would start from the same list. *)
Definition in_sync (h : helper) : Prop :=
  stored_packages (track_file h) = Some (tracked_packages h).

(** The console lines among the events of a trace. *)
Definition console_lines (t : list event) : list string :=
  omap (λ e, match e with Console line => Some line | _ => None end) t.

(** A file of the tree below a node, at any depth, with its name and its
    content. *)
Inductive holds : node → string * option string → Prop :=
  | holds_here (entries : list (string * node)) (name : string)
      (content : option string) :
      (name, File content) ∈ entries → holds (Dir entries) (name, content)
  | holds_below (entries : list (string * node)) (d : string) (child : node)
      (f : string * option string) :
      (d, child) ∈ entries → holds child f → holds (Dir entries) f.

(** * Properties *)

(** ** Resolver *)

Lemma assign_fold_lookup (deps : list string) (m : gmap string string)
    (X : string) :
  foldl assign m deps !! X =
    if decide (X ∈ deps) then Some ("lib" +:+ lower X +:+ "-dev")
    else m !! X.
Proof.
  revert m. induction deps as [|d ds IH]; intros m; simpl.
  - reflexivity.
  - rewrite IH. unfold assign.
    destruct (decide (X ∈ ds)) as [Hin|Hout].
    + rewrite decide_True by (right; exact Hin). reflexivity.
    + destruct (decide (X = d)) as [->|Hne].
      * rewrite decide_True by left. apply lookup_insert_eq.
      * rewrite decide_False by (intros [?|?]%elem_of_cons; tauto).
        apply lookup_insert_ne. congruence.
Qed.

Lemma suggest_lookup (deps : list string) (X : string) :
  suggest_apt_packages deps !! X =
    if decide (X ∈ deps) then Some ("lib" +:+ lower X +:+ "-dev") else None.
Proof.
  unfold suggest_apt_packages. rewrite assign_fold_lookup.
  destruct (decide (X ∈ deps)); [reflexivity | apply lookup_empty].
Qed.

Lemma suggest_dom (deps : list string) :
  dom (suggest_apt_packages deps) = list_to_set deps.
Proof.
  apply set_eq. intros X. rewrite elem_of_dom, suggest_lookup, elem_of_list_to_set.
  destruct (decide (X ∈ deps)) as [Hin|Hout]; split; intros H; done.
Qed.


Example resolver_on_the_test_names :
  suggest_apt_packages ["OpenSSL"; "zlib"] !! "OpenSSL" = Some "libopenssl-dev"
  ∧ suggest_apt_packages ["OpenSSL"; "zlib"] !! "zlib" = Some "libzlib-dev".
Proof. split; vm_compute; reflexivity. Qed.

(** ** Tracker *)

Lemma tracked_emit e h : tracked_packages (emit e h) = tracked_packages h.
Proof. reflexivity. Qed.

Lemma track_present (pkg : string) (h : helper) :
  pkg ∈ tracked_packages h → track pkg h = h.
Proof. intros Hin. unfold track. rewrite decide_True by exact Hin. reflexivity. Qed.

Lemma track_absent (pkg : string) (h : helper) :
  pkg ∉ tracked_packages h →
  track pkg h =
    Helper (tracked_packages h ++ [pkg])
           (Holds (packages_doc (tracked_packages h ++ [pkg])))
           ((trace h ++ [Mkdir; Dump (packages_doc (tracked_packages h ++ [pkg]))])
              ++ [Console ("[green]Tracked:[/green] " +:+ pkg)]).
Proof.
  intros Hout. unfold track. rewrite decide_False by exact Hout. reflexivity.
Qed.

Lemma track_member (pkg : string) (h : helper) :
  pkg ∈ tracked_packages (track pkg h).
Proof.
  destruct (decide (pkg ∈ tracked_packages h)) as [Hin|Hout].
  - rewrite track_present by exact Hin. exact Hin.
  - rewrite track_absent by exact Hout. simpl. apply elem_of_app. right. left.
Qed.

Lemma track_keeps (pkg : string) (h : helper) :
  tracked_packages h `prefix_of` tracked_packages (track pkg h).
Proof.
  destruct (decide (pkg ∈ tracked_packages h)) as [Hin|Hout].
  - rewrite track_present by exact Hin. reflexivity.
  - rewrite track_absent by exact Hout. simpl. by apply prefix_app_r.
Qed.

Lemma track_NoDup (pkg : string) (h : helper) :
  NoDup (tracked_packages h) → NoDup (tracked_packages (track pkg h)).
Proof.
  intros Hnd. destruct (decide (pkg ∈ tracked_packages h)) as [Hin|Hout].
  - rewrite track_present by exact Hin. exact Hnd.
  - rewrite track_absent by exact Hout. simpl.
    apply NoDup_app. split; [exact Hnd|]. split.
    + intros x Hx ->%list_elem_of_singleton. contradiction.
    + apply NoDup_singleton.
Qed.

Lemma load_packages_doc (l : list string) :
  _load_tracked_packages (Holds (packages_doc l)) = Ok (JArr (JStr <$> l)).
Proof. reflexivity. Qed.

Lemma as_packages_strs (l : list string) : as_packages (JArr (JStr <$> l)) = Some l.
Proof.
  unfold as_packages. apply mapM_Some.
  induction l as [|x l IH]; constructor; [reflexivity | exact IH].
Qed.

Lemma commands_app (t u : list event) : commands (t ++ u) = commands t ++ commands u.
Proof. apply omap_app. Qed.

Lemma writes_app (t u : list event) : writes (t ++ u) = writes t ++ writes u.
Proof. apply omap_app. Qed.

Lemma new_helper_saved (l : list string) :
  new_helper (Holds (packages_doc l)) = Some (Helper l (Holds (packages_doc l)) []).
Proof.
  unfold new_helper. rewrite load_packages_doc, as_packages_strs. reflexivity.
Qed.

Lemma entries_absent (pkg : string) (l : list string) :
  pkg ∉ l → entries pkg l = 0.
Proof.
  unfold entries. induction l as [|x l IH]; intros Hout; [reflexivity|].
  apply not_elem_of_cons in Hout as [Hne Hout].
  rewrite filter_cons_False by congruence. auto.
Qed.

Lemma entries_present (pkg : string) (l : list string) :
  pkg ∈ l → 1 ≤ entries pkg l.
Proof.
  unfold entries. induction l as [|x l IH]; intros Hin; [inversion Hin|].
  destruct (decide (x = pkg)) as [->|Hne].
  - rewrite filter_cons_True by reflexivity. simpl. lia.
  - rewrite filter_cons_False by exact Hne.
    apply IH. apply elem_of_cons in Hin as [->|Hin]; [done|exact Hin].
Qed.

Lemma entries_NoDup (pkg : string) (l : list string) :
  NoDup l → pkg ∈ l → entries pkg l = 1.
Proof.
  unfold entries. induction 1 as [|x l Hx Hnd IH]; intros Hin.
  - inversion Hin.
  - apply elem_of_cons in Hin as [->|Hin].
    + rewrite filter_cons_True by reflexivity. simpl.
      f_equal. apply (entries_absent x l Hx).
    + rewrite filter_cons_False; [auto|]. intros ->. contradiction.
Qed.

Section TrackerFacts.

Variable apt : list event → list string → Z.

Lemma install_step_member h pkg :
  pkg ∈ tracked_packages (install_step apt h pkg).
Proof. unfold install_step. apply track_member. Qed.

Lemma install_step_keeps h pkg :
  tracked_packages h `prefix_of` tracked_packages (install_step apt h pkg).
Proof.
  unfold install_step.
  set (h2 := subprocess_run apt _ _).
  change (tracked_packages h) with (tracked_packages h2). apply track_keeps.
Qed.

Lemma install_deps_keeps pkgs h :
  tracked_packages h `prefix_of` tracked_packages (install_deps apt pkgs h).
Proof.
  unfold install_deps. revert h.
  induction pkgs as [|p ps IH]; intros h; simpl; [reflexivity|].
  etrans; [apply (install_step_keeps h p) | apply IH].
Qed.

Lemma install_deps_member pkgs h pkg :
  pkg ∈ pkgs → pkg ∈ tracked_packages (install_deps apt pkgs h).
Proof.
  unfold install_deps. revert h.
  induction pkgs as [|p ps IH]; intros h Hin; [inversion Hin|].
  simpl. apply elem_of_cons in Hin as [->|Hin]; [|by apply IH].
  eapply elem_of_prefix; [apply install_step_member|].
  apply (install_deps_keeps ps).
Qed.

Lemma commands_track pkg h :
  commands (trace (track pkg h)) = commands (trace h).
Proof.
  destruct (decide (pkg ∈ tracked_packages h)) as [Hin|Hout].
  - by rewrite track_present.
  - rewrite track_absent by exact Hout. simpl.
    rewrite !commands_app. simpl. by rewrite !app_nil_r.
Qed.

Lemma commands_install_step h pkg :
  commands (trace (install_step apt h pkg)) =
    commands (trace h) ++ [["sudo"; "apt-get"; "install"; "-y"; pkg]].
Proof.
  unfold install_step. rewrite commands_track. simpl.
  rewrite !commands_app. simpl. by rewrite app_nil_r.
Qed.

Lemma commands_install_deps pkgs h :
  commands (trace (install_deps apt pkgs h)) =
    commands (trace h)
      ++ ((λ pkg, ["sudo"; "apt-get"; "install"; "-y"; pkg]) <$> pkgs).
Proof.
  unfold install_deps. revert h.
  induction pkgs as [|p ps IH]; intros h; simpl; [by rewrite app_nil_r|].
  rewrite IH, commands_install_step, <- app_assoc. reflexivity.
Qed.

Lemma install_step_NoDup h pkg :
  NoDup (tracked_packages h) → NoDup (tracked_packages (install_step apt h pkg)).
Proof. intros Hnd. unfold install_step. by apply track_NoDup. Qed.

Lemma install_deps_NoDup pkgs h :
  NoDup (tracked_packages h) → NoDup (tracked_packages (install_deps apt pkgs h)).
Proof.
  unfold install_deps. revert h.
  induction pkgs as [|p ps IH]; intros h Hnd; simpl; [exact Hnd|].
  apply IH, install_step_NoDup, Hnd.
Qed.

Lemma cleanup_tracked h : tracked_packages (cleanup apt h) = [].
Proof. reflexivity. Qed.

Lemma cleanup_file h : track_file (cleanup apt h) = Holds (packages_doc []).
Proof. reflexivity. Qed.

Lemma remove_steps_commands l h :
  commands (trace (foldl (remove_step apt) h l)) =
    commands (trace h)
      ++ ((λ pkg, ["sudo"; "apt-get"; "remove"; "-y"; pkg]) <$> l).
Proof.
  revert h. induction l as [|p ps IH]; intros h; simpl; [by rewrite app_nil_r|].
  rewrite IH. unfold remove_step. simpl.
  rewrite !commands_app. simpl. rewrite app_nil_r, <- app_assoc. reflexivity.
Qed.

End TrackerFacts.

Lemma stored_saved (l : list string) :
  stored_packages (Holds (packages_doc l)) = Some l.
Proof. unfold stored_packages. rewrite new_helper_saved. reflexivity. Qed.

Lemma track_duplicate_free (pkg : string) (h : helper) :
  duplicate_free h → duplicate_free (track pkg h).
Proof.
  intros [Hnd Hfile]. split; [by apply track_NoDup|].
  destruct (decide (pkg ∈ tracked_packages h)) as [Hin|Hout].
  - rewrite track_present by exact Hin. exact Hfile.
  - pose proof (track_NoDup pkg h Hnd) as Hnd'.
    rewrite track_absent in * by exact Hout. simpl in *.
    intros l. rewrite stored_saved. intros [= <-]. exact Hnd'.
Qed.

Lemma track_same_store (pkg : string) (h1 h2 : helper) :
  same_store h1 h2 → same_store (track pkg h1) (track pkg h2).
Proof.
  intros [Hl Hf]. unfold track. rewrite Hl.
  destruct (decide (pkg ∈ tracked_packages h2)); [by split|].
  split; simpl; by rewrite ?Hl.
Qed.

Section TrackerInvariant.

Variables apt apt' : list event → list string → Z.

Lemma install_step_duplicate_free h pkg :
  duplicate_free h → duplicate_free (install_step apt h pkg).
Proof. intros Hh. unfold install_step. by apply track_duplicate_free. Qed.

Lemma install_deps_duplicate_free pkgs h :
  duplicate_free h → duplicate_free (install_deps apt pkgs h).
Proof.
  unfold install_deps. revert h.
  induction pkgs as [|p ps IH]; intros h Hh; simpl; [exact Hh|].
  apply IH, install_step_duplicate_free, Hh.
Qed.

Lemma cleanup_duplicate_free h : duplicate_free (cleanup apt h).
Proof.
  split; [rewrite cleanup_tracked; constructor|].
  rewrite cleanup_file. intros l. rewrite stored_saved. intros [= <-].
  constructor.
Qed.

Lemma install_deps_same_store pkgs h1 h2 :
  same_store h1 h2 →
  same_store (install_deps apt pkgs h1) (install_deps apt' pkgs h2).
Proof.
  unfold install_deps. revert h1 h2.
  induction pkgs as [|p ps IH]; intros h1 h2 Hs; simpl; [exact Hs|].
  apply IH. unfold install_step. apply track_same_store. exact Hs.
Qed.

End TrackerInvariant.





(** C10. For every tracker state and every package [P]: when [P] is already
    tracked, [track P] returns the state as it was, list, file and trace, so
    nothing is written; when [P] is not tracked, the list becomes the old
    list followed by [P], and the one write of the call stores that list. *)
Theorem track_frame (h : helper) (P : string) :
  (P ∈ tracked_packages h → track P h = h)
  ∧ (P ∉ tracked_packages h →
       tracked_packages (track P h) = tracked_packages h ++ [P]
       ∧ track_file (track P h) = Holds (packages_doc (tracked_packages h ++ [P]))
       ∧ writes (trace (track P h)) =
           writes (trace h) ++ [packages_doc (tracked_packages h ++ [P])]).
Proof.
  split; [apply track_present|].
  intros Hout. rewrite track_absent by exact Hout. simpl.
  repeat split. rewrite !writes_app. simpl. by rewrite app_nil_r.
Qed.

Lemma track_frame_witness :
  track "libfoo-dev" (Helper ["libfoo-dev"] Absent []) =
    Helper ["libfoo-dev"] Absent []
  ∧ tracked_packages (track "libfoo-dev" (Helper ["libbar-dev"] Absent []))
    = ["libbar-dev"; "libfoo-dev"].
Proof.
  split.
  - apply (proj1 (track_frame (Helper ["libfoo-dev"] Absent []) "libfoo-dev")).
    simpl. left.
  - apply (proj2 (track_frame (Helper ["libbar-dev"] Absent []) "libfoo-dev")).
    simpl. intros Hin. apply list_elem_of_singleton in Hin. discriminate Hin.
Defined.

(** C6, as the code has it. A tracker built while the file is absent starts
    from the empty list; a tracker built from a file starts from the
    [packages] array as it is stored, so it is free of duplicates when that
    array is; and from a state free of duplicates, in the object and in the
    file, [track], [cleanup] and [install_deps] lead to a state free of
    duplicates, in the object and in the file they leave for the next run. *)
Theorem no_duplicates_preserved (apt : list event → list string → Z) :
  new_helper Absent = Some (Helper [] Absent [])
  ∧ (∀ f h, new_helper f = Some h →
       _load_tracked_packages f = Ok (JArr (JStr <$> tracked_packages h)))
  ∧ (∀ f h, new_helper f = Some h →
       (∀ l, stored_packages f = Some l → NoDup l) → duplicate_free h)
  ∧ (∀ h pkg, duplicate_free h → duplicate_free (track pkg h))
  ∧ (∀ h, duplicate_free h → duplicate_free (cleanup apt h))
  ∧ (∀ h pkgs, duplicate_free h → duplicate_free (install_deps apt pkgs h)).
Proof.
  split; [reflexivity|]. split; [|split; [|split; [|split]]].
  - intros f h. unfold new_helper.
    destruct (_load_tracked_packages f) as [j|e]; [|discriminate].
    destruct (as_packages j) as [l|] eqn:Hl; [|discriminate].
    intros [= <-]. simpl. f_equal.
    destruct j as [| | | |items|]; try discriminate Hl.
    f_equal. unfold as_packages in Hl. apply mapM_Some in Hl.
    induction Hl as [|j s js ss Hj _ IH]; [reflexivity|].
    destruct j; try discriminate Hj. injection Hj as ->.
    rewrite fmap_cons, IH. reflexivity.
  - intros f h Hnew Hfile.
    assert (stored_packages f = Some (tracked_packages h)) as Hst
      by (unfold stored_packages; rewrite Hnew; reflexivity).
    assert (track_file h = f) as Hf.
    { unfold new_helper in Hnew.
      destruct (_load_tracked_packages f); [|discriminate].
      destruct (as_packages a); [|discriminate]. by injection Hnew as <-. }
    split; [by apply Hfile|]. rewrite Hf. exact Hfile.
  - intros h pkg. apply track_duplicate_free.
  - intros h _. apply cleanup_duplicate_free.
  - intros h pkgs. apply install_deps_duplicate_free.
Qed.

Lemma no_duplicates_preserved_witness :
  duplicate_free (Helper ["libbar-dev"] Absent [])
  ∧ duplicate_free (track "libfoo-dev" (Helper ["libbar-dev"] Absent [])).
Proof.
  assert (duplicate_free (Helper ["libbar-dev"] Absent [])) as Hh.
  { split; simpl.
    - apply NoDup_singleton.
    - intros l Hl. injection Hl as <-. apply NoDup_nil_2. }
  split; [exact Hh|].
  exact (proj1 (proj2 (proj2 (proj2 (no_duplicates_preserved (λ _ _, 0%Z)))))
           (Helper ["libbar-dev"] Absent []) "libfoo-dev" Hh).
Defined.

(** C6, as stated, fails: a file whose [packages] array names one package
    twice is loaded as it is, and the tracker starts with a duplicate. *)
Lemma loaded_duplicates_are_kept :
  ∃ h, new_helper (Holds (JObj [("packages", JArr [JStr "a"; JStr "a"])]))
         = Some h
       ∧ tracked_packages h = ["a"; "a"]
       ∧ ¬ NoDup (tracked_packages h).
Proof.
  eexists. split; [reflexivity|]. split; [reflexivity|].
  simpl. intros Hnd. apply NoDup_cons in Hnd as [Hout _].
  apply Hout. left.
Qed.

(** C7, as the code has it. When the file is absent the load returns the
    empty array.  When the file holds a JSON object, whatever its members,
    the load does not raise: it returns the value of the [packages] member,
    and the empty array when the object has none. *)
Theorem load_is_permissive_on_objects :
  _load_tracked_packages Absent = Ok (JArr [])
  ∧ (∀ members,
       _load_tracked_packages (Holds (JObj members)) =
         Ok (default (JArr []) (dict_get members "packages")))
  ∧ (∀ members, dict_get members "packages" = None →
       _load_tracked_packages (Holds (JObj members)) = Ok (JArr [])).
Proof.
  split; [reflexivity|]. split; [reflexivity|].
  intros members Hnone. simpl. rewrite Hnone. reflexivity.
Qed.

Lemma load_is_permissive_on_objects_witness :
  dict_get [("version", JNum "1")] "packages" = None
  ∧ _load_tracked_packages (Holds (JObj [("version", JNum "1")])) = Ok (JArr []).
Proof.
  assert (dict_get [("version", JNum "1")] "packages" = None) as Hnone
    by reflexivity.
  split; [exact Hnone|].
  exact (proj2 (proj2 load_is_permissive_on_objects)
           [("version", JNum "1")] Hnone).
Defined.

(** C7, as stated, fails: a file that holds the well-formed document [[]],
    an array and not an object, makes the load raise. *)
Lemma load_raises_on_array :
  _load_tracked_packages (Holds (JArr [])) = Raise AttributeError
  ∧ ¬ ∃ j, _load_tracked_packages (Holds (JArr [])) = Ok j.
Proof. split; [reflexivity|]. intros [j Hj]. discriminate Hj. Qed.

(** ** Scanner *)

(** C9. For every path at which the file system has nothing, [analyze]
    returns the empty list and raises nothing. *)
Theorem analyze_missing_root (fs : filesystem) (path : string) :
  fs path = None → analyze fs path = Ok [].
Proof.
  intros Hmissing. unfold analyze, os_walk. rewrite Hmissing. simpl.
  reflexivity.
Qed.

Lemma analyze_missing_root_witness :
  analyze (λ _, None) "/no/such/dir" = Ok [].
Proof. apply (analyze_missing_root (λ _, None) "/no/such/dir"). reflexivity. Defined.

(** *** Strings *)

Lemma app_cons (c : ascii) (s t : string) :
  String c s +:+ t = String c (s +:+ t).
Proof. reflexivity. Qed.

Lemma app_nil_l (s : string) : "" +:+ s = s.
Proof. reflexivity. Qed.

Lemma app_nil_r (s : string) : s +:+ "" = s.
Proof. induction s as [|c s IH]; [reflexivity|]. by rewrite app_cons, IH. Qed.

Lemma app_assoc (s t u : string) : (s +:+ t) +:+ u = s +:+ (t +:+ u).
Proof. induction s as [|c s IH]; [reflexivity|]. by rewrite !app_cons, IH. Qed.

Lemma length_app (s t : string) :
  String.length (s +:+ t) = String.length s + String.length t.
Proof. induction s as [|c s IH]; [reflexivity|]. rewrite app_cons. simpl. by rewrite IH. Qed.

Lemma all_chars_app (p : ascii → bool) (s t : string) :
  all_chars p (s +:+ t) = all_chars p s && all_chars p t.
Proof.
  induction s as [|c s IH]; [reflexivity|].
  rewrite app_cons. simpl. rewrite IH. by rewrite andb_assoc.
Qed.

Lemma starts_with_app (needle s : string) : starts_with needle (needle +:+ s) = true.
Proof.
  induction needle as [|c n IH]; [reflexivity|].
  rewrite app_cons. simpl. by rewrite Ascii.eqb_refl, IH.
Qed.

(** *** The matcher *)

Lemma keep_false (x : ascii) (r : option found) : keep false x r = r.
Proof. by destruct r as [[cap rest]|]. Qed.

Lemma match_at_lit_app (n : string) (pat : pattern) (s : string) :
  match_at (lit n ++ pat) (n +:+ s) = match_at pat s.
Proof.
  induction n as [|c n IH]; [reflexivity|].
  rewrite app_cons. simpl. by rewrite Ascii.eqb_refl, keep_false.
Qed.

Lemma match_at_lit_fail (n : string) (pat : pattern) (s : string) :
  starts_with n s = false → match_at (lit n ++ pat) s = None.
Proof.
  revert s. induction n as [|c n IH]; intros s Hs; [discriminate Hs|].
  destruct s as [|x s]; [reflexivity|]. simpl in *.
  destruct (Ascii.eqb x c); [|reflexivity].
  rewrite keep_false. by apply IH.
Qed.

Lemma greedy_run (p : ascii → bool) (g : bool)
    (k : string → option found) (X rest cap r : string) :
  all_chars p X = true → head_in p rest = false → k rest = Some (cap, r) →
  greedy p g k (X +:+ rest) = Some (if g then X +:+ cap else cap, r).
Proof.
  intros HX Hrest Hk. induction X as [|x X IH].
  - rewrite app_nil_l. destruct g.
    + destruct rest as [|y rest']; simpl; [exact Hk|].
      simpl in Hrest. by rewrite Hrest.
    + destruct rest as [|y rest']; simpl; [exact Hk|].
      simpl in Hrest. by rewrite Hrest.
  - simpl in HX. apply andb_true_iff in HX as [Hx HX].
    rewrite app_cons. simpl. rewrite Hx, (IH HX). by destruct g.
Qed.

Lemma plus_run (p : ascii → bool) (g : bool) (pat : pattern)
    (X rest cap r : string) :
  X ≠ "" → all_chars p X = true → head_in p rest = false →
  match_at pat rest = Some (cap, r) →
  match_at ((g, Plus p) :: pat) (X +:+ rest)
    = Some (if g then X +:+ cap else cap, r).
Proof.
  intros Hne HX Hrest Hk. destruct X as [|x X]; [done|].
  simpl in HX. apply andb_true_iff in HX as [Hx HX].
  rewrite app_cons. simpl. rewrite Hx.
  rewrite (greedy_run p g (match_at pat) X rest cap r HX Hrest Hk).
  by destruct g.
Qed.

Lemma lazy_cons (p : ascii → bool) (g : bool) (k : string → option found)
    (x : ascii) (s : string) :
  lazy p g k (String x s) =
    match k (String x s) with
    | Some r => Some r
    | None => if p x then keep g x (lazy p g k s) else None
    end.
Proof. reflexivity. Qed.

Lemma lazy_nil (p : ascii → bool) (g : bool) (k : string → option found) :
  lazy p g k "" = match k "" with Some r => Some r | None => None end.
Proof. reflexivity. Qed.

(** The lazy star stops at the first place its continuation accepts. *)
Lemma lazy_run (p q : ascii → bool) (g : bool) (k : string → option found)
    (body rest cap r : string) :
  (∀ x s, q x = true → k (String x s) = None) →
  all_chars p body = true → all_chars q body = true →
  k rest = Some (cap, r) →
  lazy p g k (body +:+ rest) = Some (if g then body +:+ cap else cap, r).
Proof.
  intros Hfail Hp Hq Hk. induction body as [|x body IH].
  - rewrite app_nil_l. destruct rest as [|y rest'].
    + rewrite lazy_nil, Hk. by destruct g.
    + rewrite lazy_cons, Hk. by destruct g.
  - simpl in Hp, Hq.
    apply andb_true_iff in Hp as [Hx Hp].
    apply andb_true_iff in Hq as [Hqx Hq].
    rewrite app_cons, lazy_cons, (Hfail _ _ Hqx), Hx, (IH Hp Hq).
    by destruct g.
Qed.

(** A match leaves a suffix of the text, and a pattern that opens with a
    literal or with a one-character class consumes at least one character:
    no pattern of the program matches the empty string. *)
Lemma keep_Some (g : bool) (x : ascii) (r : option found) (cap rest : string) :
  keep g x r = Some (cap, rest) → ∃ cap', r = Some (cap', rest).
Proof.
  destruct r as [[cap' rest']|]; [|discriminate]. simpl.
  intros [= _ <-]. by exists cap'.
Qed.

Lemma greedy_shortens (p : ascii → bool) (g : bool)
    (k : string → option found) (s cap rest : string) :
  (∀ s cap rest, k s = Some (cap, rest) → String.length rest ≤ String.length s) →
  greedy p g k s = Some (cap, rest) → String.length rest ≤ String.length s.
Proof.
  intros Hk. revert cap. induction s as [|x s IH]; intros cap; simpl.
  - apply Hk.
  - destruct (p x); [|apply Hk].
    destruct (keep g x (greedy p g k s)) as [[cap' rest']|] eqn:Hmore.
    + intros [= <- <-]. apply keep_Some in Hmore as [cap'' Hmore].
      apply IH in Hmore. lia.
    + apply Hk.
Qed.

Lemma lazy_shortens (p : ascii → bool) (g : bool)
    (k : string → option found) (s cap rest : string) :
  (∀ s cap rest, k s = Some (cap, rest) → String.length rest ≤ String.length s) →
  lazy p g k s = Some (cap, rest) → String.length rest ≤ String.length s.
Proof.
  intros Hk. revert cap. induction s as [|x s IH]; intros cap.
  - rewrite lazy_nil. destruct (k "") as [[cap' rest']|] eqn:Hhere;
      [|discriminate]. intros [= <- <-]. by apply Hk in Hhere.
  - rewrite lazy_cons. destruct (k (String x s)) as [[cap' rest']|] eqn:Hhere.
    + intros [= <- <-]. by apply Hk in Hhere.
    + destruct (p x); [|discriminate].
      intros [cap' Hmore]%keep_Some. apply IH in Hmore. simpl. lia.
Qed.

Lemma match_at_shortens (pat : pattern) (s cap rest : string) :
  match_at pat s = Some (cap, rest) → String.length rest ≤ String.length s.
Proof.
  revert s cap rest. induction pat as [|[g a] pat IH]; intros s cap rest.
  - simpl. by intros [= _ <-].
  - destruct a as [c|p|p|p|p]; simpl.
    + destruct s as [|x s]; [discriminate|].
      destruct (Ascii.eqb x c); [|discriminate].
      intros [cap' Hm]%keep_Some. apply IH in Hm. simpl. lia.
    + destruct s as [|x s]; [discriminate|].
      destruct (p x); [|discriminate].
      intros [cap' Hm]%keep_Some. apply IH in Hm. simpl. lia.
    + destruct s as [|x s]; [apply IH|].
      destruct (p x); [|apply IH].
      destruct (keep g x (match_at pat s)) as [[cap' rest']|] eqn:Htake;
        [|apply IH].
      intros [= <- <-]. apply keep_Some in Htake as [cap'' Hm].
      apply IH in Hm. simpl. lia.
    + destruct s as [|x s]; [discriminate|].
      destruct (p x); [|discriminate].
      intros [cap' Hm]%keep_Some.
      apply greedy_shortens in Hm; [simpl; lia | apply IH].
    + apply lazy_shortens, IH.
Qed.

Lemma match_at_consumes (pat : pattern) (s cap rest : string) :
  opens_with_a_character pat →
  match_at pat s = Some (cap, rest) → String.length rest < String.length s.
Proof.
  destruct pat as [|[g [c|p|p|p|p]] pat]; try done; intros _; simpl.
  - destruct s as [|x s]; [discriminate|].
    destruct (Ascii.eqb x c); [|discriminate].
    intros [cap' Hm]%keep_Some. apply match_at_shortens in Hm. simpl. lia.
  - destruct s as [|x s]; [discriminate|].
    destruct (p x); [|discriminate].
    intros [cap' Hm]%keep_Some. apply match_at_shortens in Hm. simpl. lia.
Qed.

Lemma patterns_consume (pat : pattern) (s cap rest : string) :
  pat ∈ [cmake_re; meson_re; autoconf_re; makefile_re; setup_re true;
         quoted_re] →
  match_at pat s = Some (cap, rest) → String.length rest < String.length s.
Proof.
  intros Hpat. apply match_at_consumes.
  repeat (apply elem_of_cons in Hpat as [->|Hpat]; [exact I|]).
  inversion Hpat.
Qed.

(** *** The scan *)

Lemma findall_from_nil (pat : pattern) (k : nat) : findall_from pat k "" = [].
Proof. reflexivity. Qed.

Lemma findall_skip (pat : pattern) (a b : string) :
  findall_from pat (String.length a) (a +:+ b) = findall_from pat 0 b.
Proof. induction a as [|x a IH]; [reflexivity|]. rewrite app_cons. exact IH. Qed.

Lemma findall_match (pat : pattern) (a b cap : string) :
  a ≠ "" → match_at pat (a +:+ b) = Some (cap, b) →
  findall pat (a +:+ b) = cap :: findall pat b.
Proof.
  intros Hne Hm. destruct a as [|x a]; [done|].
  unfold findall. rewrite app_cons in *. simpl. rewrite Hm. f_equal.
  rewrite length_app.
  replace (S (String.length a + String.length b) - String.length b - 1)
    with (String.length a) by lia.
  apply findall_skip.
Qed.

Lemma findall_no_match (pat : pattern) (x : ascii) (s : string) :
  match_at pat (String x s) = None →
  findall pat (String x s) = findall pat s.
Proof. intros Hm. unfold findall. simpl. by rewrite Hm. Qed.

Lemma findall_before_first (n : string) (pat : pattern) (pre s : string) :
  find n (pre +:+ s) = Some (String.length pre) →
  findall (lit n ++ pat) (pre +:+ s) = findall (lit n ++ pat) s.
Proof.
  induction pre as [|x pre IH]; [reflexivity|].
  rewrite app_cons. intros Hfind.
  assert (starts_with n (String x (pre +:+ s)) = false
          ∧ find n (pre +:+ s) = Some (String.length pre)) as [Hsw Hrest].
  { destruct n as [|c n]; [discriminate Hfind|].
    simpl in Hfind.
    destruct (Ascii.eqb x c && starts_with n (pre +:+ s)) eqn:Hsw;
      [discriminate Hfind|].
    split; [exact Hsw|].
    destruct (find (String c n) (pre +:+ s)) as [i|]; [|discriminate Hfind].
    simpl in Hfind. congruence. }
  rewrite findall_no_match by (by apply match_at_lit_fail).
  by apply IH.
Qed.

(** *** Text in which the literal of a pattern does not occur *)

Lemma starts_with_extend (n s t : string) :
  starts_with n s = true → starts_with n (s +:+ t) = true.
Proof.
  revert s. induction n as [|c n IH]; intros s Hs; [reflexivity|].
  destruct s as [|x s]; [discriminate Hs|].
  rewrite app_cons. simpl in *.
  apply andb_true_iff in Hs as [Hx Hs]. by rewrite Hx, IH.
Qed.

Lemma starts_with_within (n s t : string) :
  String.length n ≤ String.length s →
  starts_with n (s +:+ t) = starts_with n s.
Proof.
  revert s. induction n as [|c n IH]; intros s Hlen; [reflexivity|].
  destruct s as [|x s]; [simpl in Hlen; lia|].
  rewrite app_cons. simpl in *. rewrite IH by lia. reflexivity.
Qed.

Lemma find_cons_S (n : string) (x : ascii) (s : string) (k : nat) :
  find n (String x s) = Some (S k) →
  starts_with n (String x s) = false ∧ find n s = Some k.
Proof.
  intros Hfind. destruct n as [|c n]; [discriminate Hfind|].
  simpl in Hfind.
  destruct (Ascii.eqb x c && starts_with n s) eqn:Hsw; [discriminate Hfind|].
  split; [exact Hsw|].
  destruct (find (String c n) s) as [i|]; [|discriminate Hfind].
  simpl in Hfind. congruence.
Qed.

Lemma find_cons_skip (n : string) (x : ascii) (s : string) (k : nat) :
  starts_with n (String x s) = false → find n s = Some k →
  find n (String x s) = Some (S k).
Proof.
  intros Hsw Hfind. destruct n as [|c n]; [discriminate Hsw|].
  simpl in *. by rewrite Hsw, Hfind.
Qed.

Lemma find_at_start (n s : string) : find n (n +:+ s) = Some 0.
Proof.
  pose proof (starts_with_app n s) as Hsw.
  destruct n as [|c n]; [by destruct s|].
  rewrite app_cons in *. simpl in *. by rewrite Hsw.
Qed.

Lemma quiet_first (n gap rest : string) :
  quiet n gap = true →
  find n (gap +:+ n +:+ rest) = Some (String.length gap).
Proof.
  unfold quiet. intros Hq%bool_decide_eq_true.
  induction gap as [|x gap IH].
  - exact (find_at_start n rest).
  - rewrite app_cons in *. simpl String.length in *.
    apply find_cons_S in Hq as [Hsw Hq].
    apply find_cons_skip; [|by apply IH].
    rewrite <- Hsw, <- (app_cons x gap n), <- (app_cons x gap (n +:+ rest)).
    rewrite <- app_assoc. apply starts_with_within.
    rewrite length_app. lia.
Qed.

Lemma quiet_end (n : string) (pat : pattern) (gap : string) :
  quiet n gap = true → findall (lit n ++ pat) gap = [].
Proof.
  unfold quiet. intros Hq%bool_decide_eq_true.
  induction gap as [|x gap IH]; [reflexivity|].
  rewrite app_cons in Hq. simpl String.length in Hq.
  apply find_cons_S in Hq as [Hsw Hq].
  rewrite findall_no_match; [by apply IH|].
  apply match_at_lit_fail.
  destruct (starts_with n (String x gap)) eqn:Hhere; [|reflexivity].
  rewrite <- (app_cons x gap n) in Hsw.
  by rewrite (starts_with_extend _ _ n Hhere) in Hsw.
Qed.

Lemma findall_quiet_gap (n : string) (pat : pattern) (gap rest : string) :
  quiet n gap = true →
  findall (lit n ++ pat) (gap +:+ n +:+ rest)
    = findall (lit n ++ pat) (n +:+ rest).
Proof. intros Hq. by apply findall_before_first, quiet_first. Qed.

(** *** [find_package] calls *)

Lemma space_is_not_f (x : ascii) :
  Ascii.is_space x = true → Ascii.eqb x "f" = false.
Proof.
  intros Hsp. destruct (Ascii.eqb_spec x "f") as [->|]; [discriminate Hsp|done].
Qed.

(** White space of any kind and length is a gap between calls. *)
Lemma spaces_quiet (gap : string) :
  all_chars Ascii.is_space gap = true → quiet "find_package(" gap = true.
Proof.
  intros Hgap. apply bool_decide_eq_true.
  induction gap as [|x gap IH]; [reflexivity|].
  simpl in Hgap. apply andb_true_iff in Hgap as [Hx Hgap].
  rewrite app_cons. simpl String.length.
  apply find_cons_skip; [|by apply IH].
  simpl. by rewrite (space_is_not_f x Hx).
Qed.

Lemma match_cmake_call (X after : string) :
  identifier X = true → head_in is_word after = false →
  match_at cmake_re ("find_package(" +:+ X +:+ after) = Some (X, after).
Proof.
  intros [Hne Hword]%andb_true_iff Hafter.
  unfold cmake_re. rewrite match_at_lit_app.
  pose proof (plus_run is_word true [] X after "" after) as Hrun.
  rewrite app_nil_r in Hrun.
  apply Hrun; [by destruct X | exact Hword | exact Hafter | reflexivity].
Qed.

Lemma findall_cmake_call (X after : string) :
  identifier X = true → head_in is_word after = false →
  findall cmake_re ("find_package(" +:+ X +:+ after)
    = X :: findall cmake_re after.
Proof.
  intros HX Hafter.
  rewrite <- (app_assoc "find_package(" X after).
  apply findall_match; [discriminate|].
  rewrite app_assoc. by apply match_cmake_call.
Qed.

Lemma head_in_app (p : ascii → bool) (s t : string) :
  head_in (λ c, negb (p c)) s = true → head_in p (s +:+ t) = false.
Proof.
  destruct s as [|x s]; [discriminate|].
  rewrite app_cons. simpl. apply negb_true_iff.
Qed.

Lemma findall_after_call (after : string) (calls : list (string * string)) :
  quiet "find_package(" after = true →
  findall cmake_re (after +:+ calls_text calls)
    = findall cmake_re (calls_text calls).
Proof.
  intros Hq. destruct calls as [|[X after'] calls]; simpl.
  - rewrite app_nil_r.
    apply (quiet_end "find_package(" [(true, Plus is_word)]), Hq.
  - unfold call_text. simpl. rewrite !app_assoc.
    apply (findall_quiet_gap "find_package(" [(true, Plus is_word)]), Hq.
Qed.

Lemma findall_calls_text (calls : list (string * string)) :
  forallb cmake_call_ok calls = true →
  findall cmake_re (calls_text calls) = calls.*1.
Proof.
  induction calls as [|[X after] calls IH]; intros Hcalls; [reflexivity|].
  simpl in Hcalls. apply andb_true_iff in Hcalls as [Hcall Hcalls].
  unfold cmake_call_ok in Hcall. simpl in Hcall.
  apply andb_true_iff in Hcall as [Hcall Hquiet].
  apply andb_true_iff in Hcall as [HX Hhead].
  simpl. unfold call_text. simpl. rewrite !app_assoc.
  rewrite findall_cmake_call; [|exact HX|by apply head_in_app].
  f_equal. rewrite findall_after_call by exact Hquiet. by apply IH.
Qed.

(** *** What [analyze] makes of the files it meets *)

Lemma elem_of_update (deps : gset string) (xs : list string) (x : string) :
  x ∈ update deps xs ↔ x ∈ deps ∨ x ∈ xs.
Proof. unfold update. by rewrite elem_of_union, elem_of_list_to_set. Qed.

Lemma elem_of_update_empty (xs : list string) (x : string) :
  x ∈ update ∅ xs ↔ x ∈ xs.
Proof.
  rewrite elem_of_update. split; [|by right].
  intros [Hempty|Hin]; [by apply not_elem_of_empty in Hempty | exact Hin].
Qed.

Lemma parse_cmake (content x : string) :
  x ∈ _parse_dependencies "CMakeLists.txt" content
  ↔ x ∈ findall cmake_re content.
Proof.
  unfold _parse_dependencies.
  change (patterns "CMakeLists.txt") with (Some cmake_re).
  change (String.eqb "CMakeLists.txt" "setup.py") with false.
  cbv beta iota. by rewrite elem_of_elements, elem_of_update_empty.
Qed.

Lemma visit_unrecognised (deps : gset string) (fname : string)
    (content : option string) :
  recognised fname = false → visit deps (fname, content) = Ok deps.
Proof. intros Hr. unfold visit. by rewrite Hr. Qed.

Lemma visit_all_cons (deps : gset string) (f : string * option string)
    (files : list (string * option string)) :
  visit_all deps (f :: files) =
    bind (visit deps f) (λ deps', visit_all deps' files).
Proof. reflexivity. Qed.

Lemma visit_all_descriptors (deps : gset string)
    (files : list (string * option string)) :
  visit_all deps files = visit_all deps (filter (λ f, recognised f.1) files).
Proof.
  revert deps. induction files as [|[fname content] files IH]; intros deps;
    [reflexivity|].
  destruct (recognised fname) eqn:Hr.
  - rewrite filter_cons_True by (cbn [fst]; rewrite Hr; exact I).
    rewrite !visit_all_cons.
    destruct (visit deps (fname, content)) as [deps'|e]; unfold bind;
      [apply IH|reflexivity].
  - rewrite filter_cons_False by (cbn [fst]; rewrite Hr; intros []).
    rewrite visit_all_cons, visit_unrecognised by exact Hr. unfold bind. apply IH.
Qed.




(** *** Quoted tokens *)

Lemma quote_not_word_or_hyphen (c : ascii) :
  is_quote c = true → is_word_or_hyphen c = false.
Proof.
  unfold is_quote. intros [Hc|Hc]%orb_true_iff;
    apply Ascii.eqb_eq in Hc; subst c; reflexivity.
Qed.

Lemma filler_not_quote (c : ascii) : filler c = true → is_quote c = false.
Proof.
  unfold filler. intros [Hq _]%andb_true_iff. by apply negb_true_iff.
Qed.

Lemma quoted_re_head (x : ascii) (s : string) :
  is_quote x = false → match_at quoted_re (String x s) = None.
Proof. intros Hx. simpl. by rewrite Hx. Qed.

Lemma findall_quoted_filler (gap s : string) :
  all_chars filler gap = true →
  findall quoted_re (gap +:+ s) = findall quoted_re s.
Proof.
  induction gap as [|x gap IH]; intros Hgap; [reflexivity|].
  simpl in Hgap. apply andb_true_iff in Hgap as [Hx Hgap].
  rewrite app_cons, findall_no_match
    by apply quoted_re_head, filler_not_quote, Hx.
  by apply IH.
Qed.

Lemma match_quoted_token (q1 q2 : ascii) (name rest : string) :
  is_quote q1 = true → nonempty name = true →
  all_chars is_word_or_hyphen name = true → is_quote q2 = true →
  match_at quoted_re (String q1 (name +:+ String q2 rest)) = Some (name, rest).
Proof.
  intros Hq1 Hne Hname Hq2.
  pose proof (plus_run is_word_or_hyphen true [(false, One is_quote)]
                name (String q2 rest) "" rest) as Hrun.
  rewrite app_nil_r in Hrun.
  change (match_at quoted_re (String q1 (name +:+ String q2 rest)))
    with (if is_quote q1 then
            keep false q1
              (match_at [(true, Plus is_word_or_hyphen); (false, One is_quote)]
                 (name +:+ String q2 rest))
          else None).
  rewrite Hq1, keep_false. apply Hrun.
  - by destruct name.
  - exact Hname.
  - simpl. by apply quote_not_word_or_hyphen.
  - simpl. by rewrite Hq2.
Qed.

Lemma findall_quoted_token (q1 q2 : ascii) (name rest : string) :
  is_quote q1 = true → nonempty name = true →
  all_chars is_word_or_hyphen name = true → is_quote q2 = true →
  findall quoted_re (String q1 (name +:+ String q2 rest))
    = name :: findall quoted_re rest.
Proof.
  intros Hq1 Hne Hname Hq2.
  assert (String q1 (name +:+ String q2 rest)
          = String q1 (name +:+ String q2 "") +:+ rest) as Hsplit
    by (by rewrite app_cons, app_assoc, app_cons).
  rewrite Hsplit. apply findall_match; [discriminate|].
  rewrite <- Hsplit. by apply match_quoted_token.
Qed.

Lemma findall_list_text (tokens : list token) (tail : string) :
  forallb token_ok tokens = true → all_chars filler tail = true →
  findall quoted_re (list_text tokens tail) = quoted <$> tokens.
Proof.
  intros Htokens Htail. induction tokens as [|t ts IH]; simpl.
  - rewrite <- (app_nil_r tail). by rewrite findall_quoted_filler.
  - simpl in Htokens. apply andb_true_iff in Htokens as [Ht Hts].
    unfold token_ok in Ht.
    apply andb_true_iff in Ht as [Ht Hq2].
    apply andb_true_iff in Ht as [Ht Hname].
    apply andb_true_iff in Ht as [Ht Hne].
    apply andb_true_iff in Ht as [Hgap Hq1].
    rewrite findall_quoted_filler by exact Hgap.
    rewrite findall_quoted_token by assumption.
    f_equal. by apply IH.
Qed.

(** *** The list literal *)

Lemma all_chars_impl (p q : ascii → bool) (s : string) :
  (∀ c, p c = true → q c = true) → all_chars p s = true → all_chars q s = true.
Proof.
  intros Hpq. induction s as [|c s IH]; [done|]. simpl.
  intros [Hc Hs]%andb_true_iff. by rewrite (Hpq c Hc), IH.
Qed.

Lemma all_chars_dot (s : string) : all_chars (dot true) s = true.
Proof. induction s as [|c s IH]; [done|]. exact IH. Qed.

Lemma filler_not_bracket (c : ascii) : filler c = true → not_bracket c = true.
Proof. unfold filler. by intros [_ Hb]%andb_true_iff. Qed.

Lemma quote_not_bracket (c : ascii) : is_quote c = true → not_bracket c = true.
Proof.
  unfold is_quote. intros [Hc|Hc]%orb_true_iff;
    apply Ascii.eqb_eq in Hc; subst c; reflexivity.
Qed.

Lemma word_or_hyphen_not_bracket (c : ascii) :
  is_word_or_hyphen c = true → not_bracket c = true.
Proof.
  intros Hc. unfold not_bracket.
  destruct (Ascii.eqb_spec c "]") as [->|]; [discriminate Hc|done].
Qed.

Lemma list_text_no_bracket (tokens : list token) (tail : string) :
  forallb token_ok tokens = true → all_chars filler tail = true →
  all_chars not_bracket (list_text tokens tail) = true.
Proof.
  intros Htokens Htail. induction tokens as [|t ts IH]; simpl.
  - by apply (all_chars_impl filler), Htail; apply filler_not_bracket.
  - simpl in Htokens. apply andb_true_iff in Htokens as [Ht Hts].
    unfold token_ok in Ht.
    apply andb_true_iff in Ht as [Ht Hq2].
    apply andb_true_iff in Ht as [Ht Hname].
    apply andb_true_iff in Ht as [Ht Hne].
    apply andb_true_iff in Ht as [Hgap Hq1].
    rewrite all_chars_app. simpl. rewrite all_chars_app. simpl.
    rewrite (all_chars_impl filler not_bracket _ filler_not_bracket Hgap).
    rewrite (quote_not_bracket _ Hq1), (quote_not_bracket _ Hq2).
    rewrite (all_chars_impl _ not_bracket _ word_or_hyphen_not_bracket Hname).
    by rewrite (IH Hts).
Qed.

Lemma match_setup_list (body post : string) :
  all_chars not_bracket body = true →
  match_at (setup_re true) ("install_requires=[" +:+ body +:+ "]" +:+ post)
    = Some (body, post).
Proof.
  intros Hbody. unfold setup_re. rewrite match_at_lit_app.
  change (match_at ([(true, StarLazy (dot true))] ++ lit "]")
            (body +:+ "]" +:+ post))
    with (lazy (dot true) true (match_at (lit "]")) (body +:+ "]" +:+ post)).
  pose proof (lazy_run (dot true) not_bracket true (match_at (lit "]"))
                body ("]" +:+ post) "" post) as Hrun.
  rewrite app_nil_r in Hrun. apply Hrun.
  - intros x s Hx. unfold not_bracket in Hx. apply negb_true_iff in Hx.
    simpl. by rewrite Hx.
  - apply all_chars_dot.
  - exact Hbody.
  - reflexivity.
Qed.

Lemma findall_setup_list (pre body post : string) :
  find "install_requires=["
       (pre +:+ "install_requires=[" +:+ body +:+ "]" +:+ post)
    = Some (String.length pre) →
  all_chars not_bracket body = true →
  findall (setup_re true)
          (pre +:+ "install_requires=[" +:+ body +:+ "]" +:+ post)
    = body :: findall (setup_re true) post.
Proof.
  intros Hfirst Hbody. unfold setup_re at 1.
  rewrite findall_before_first by exact Hfirst.
  fold (setup_re true).
  assert ("install_requires=[" +:+ body +:+ "]" +:+ post
          = ("install_requires=[" +:+ body +:+ "]") +:+ post) as Hsplit
    by (by rewrite !app_assoc).
  rewrite Hsplit. apply findall_match; [discriminate|].
  rewrite <- Hsplit. by apply match_setup_list.
Qed.

Lemma elem_of_fold_update (f : string → list string) (ms : list string)
    (deps : gset string) (x : string) :
  x ∈ foldl (λ deps m, update deps (f m)) deps ms
  ↔ x ∈ deps ∨ ∃ m, m ∈ ms ∧ x ∈ f m.
Proof.
  revert deps. induction ms as [|m ms IH]; intros deps; simpl.
  - split; [by left|]. intros [Hin|(m & Hm & _)]; [exact Hin|inversion Hm].
  - rewrite IH, elem_of_update. split.
    + intros [[Hin|Hx]|(m' & Hm' & Hx)].
      * by left.
      * right. exists m. split; [left|exact Hx].
      * right. exists m'. split; [by right|exact Hx].
    + intros [Hin|(m' & Hm' & Hx)]; [by left; left|].
      apply elem_of_cons in Hm' as [->|Hm'].
      * left. by right.
      * right. by exists m'.
Qed.

Lemma parse_setup (content x : string) :
  x ∈ _parse_dependencies "setup.py" content
  ↔ ∃ m, m ∈ findall (setup_re true) content ∧ x ∈ findall quoted_re m.
Proof.
  unfold _parse_dependencies.
  change (patterns "setup.py") with (Some (setup_re true)).
  change (String.eqb "setup.py" "setup.py") with true.
  cbv beta iota. rewrite elem_of_elements, elem_of_fold_update.
  split; [|by right].
  intros [Hempty|Hm]; [by apply not_elem_of_empty in Hempty | exact Hm].
Qed.

(** C8, as the code has it. For every [setup.py] in which the first
    [install_requires=[] opens a list whose elements are quoted runs of word
    characters and hyphens, with neither a quote nor a closing bracket in the
    text around them, the scanner isolates the text up to the first closing
    bracket, extracts from it the text of every element, in order, and
    reports each as a dependency name; whatever else it reports comes from
    the rest of the file. *)
Theorem setup_list_tokens (pre : string) (tokens : list token)
    (tail post : string) :
  let body := list_text tokens tail in
  let content := pre +:+ "install_requires=[" +:+ body +:+ "]" +:+ post in
  find "install_requires=[" content = Some (String.length pre) →
  forallb token_ok tokens = true →
  all_chars filler tail = true →
  findall (setup_re true) content = body :: findall (setup_re true) post
  ∧ findall quoted_re body = quoted <$> tokens
  ∧ ∀ x, x ∈ _parse_dependencies "setup.py" content
         ↔ x ∈ (quoted <$> tokens) ∨ x ∈ _parse_dependencies "setup.py" post.
Proof.
  intros body content Hfirst Htokens Htail.
  assert (findall (setup_re true) content
          = body :: findall (setup_re true) post) as Hstage1
    by (apply findall_setup_list;
        [exact Hfirst | by apply list_text_no_bracket]).
  assert (findall quoted_re body = quoted <$> tokens) as Hstage2
    by (by apply findall_list_text).
  split; [exact Hstage1|]. split; [exact Hstage2|].
  intros x. rewrite !parse_setup, Hstage1. split.
  - intros (m & Hm & Hx). apply elem_of_cons in Hm as [->|Hm].
    + left. by rewrite <- Hstage2.
    + right. by exists m.
  - intros [Hx|(m & Hm & Hx)].
    + exists body. split; [left|by rewrite Hstage2].
    + exists m. split; [by right|exact Hx].
Qed.

Lemma setup_list_tokens_witness :
  findall (setup_re true)
    "setup(name='demo', install_requires=['requests', 'my-pkg'], x=1)"
    = ["'requests', 'my-pkg'"]
  ∧ findall quoted_re "'requests', 'my-pkg'" = ["requests"; "my-pkg"]
  ∧ ("my-pkg" ∈ _parse_dependencies "setup.py"
        "setup(name='demo', install_requires=['requests', 'my-pkg'], x=1)"
     ↔ "my-pkg" ∈ ["requests"; "my-pkg"]
       ∨ "my-pkg" ∈ _parse_dependencies "setup.py" ", x=1)").
Proof.
  pose proof (setup_list_tokens "setup(name='demo', "
                [Token "" "'" "requests" "'"; Token ", " "'" "my-pkg" "'"]
                "" ", x=1)" eq_refl eq_refl eq_refl) as (Hlist & Hnames & Hdeps).
  split; [exact Hlist|]. split; [exact Hnames|]. exact (Hdeps "my-pkg").
Defined.

(** C8, as stated, fails: in [install_requires=['requests>=2.0']] the list is
    isolated with its one quoted element inside, and no dependency name is
    extracted from it. *)
Lemma versioned_requirement_is_dropped :
  findall (setup_re true) versioned_setup = ["'requests>=2.0'"]
  ∧ _parse_dependencies "setup.py" versioned_setup = [].
Proof. split; vm_compute; reflexivity. Qed.

(** ** The scenarios of the test suite *)

Example test_analyze_meson :
  ∃ names, analyze meson_fs "/src" = Ok names ∧ names ≡ₚ ["libcurl"; "zlib"].
Proof.
  exists ["zlib"; "libcurl"]. split; [vm_compute; reflexivity|].
  apply Permutation_swap.
Qed.

Example test_track_and_cleanup (apt : list event → list string → Z) :
  ∃ h, new_helper Absent = Some h
       ∧ "libfoo-dev" ∈ tracked_packages (track "libfoo-dev" h)
       ∧ tracked_packages (cleanup apt (track "libfoo-dev" h)) = []
       ∧ _load_tracked_packages
           (track_file (cleanup apt (track "libfoo-dev" h))) = Ok (JArr []).
Proof.
  eexists. split; [reflexivity|]. split; [apply track_member|].
  split; reflexivity.
Qed.

(** * Further properties *)

(** ** What [analyze] returns, over any tree *)

Lemma visit_Ok_elem (deps deps' : gset string) (fname : string)
    (content : option string) (x : string) :
  visit deps (fname, content) = Ok deps' →
  (x ∈ deps' ↔
   x ∈ deps ∨ ∃ text, content = Some text ∧ recognised fname = true
                      ∧ x ∈ _parse_dependencies fname text).
Proof.
  unfold visit. destruct (recognised fname) eqn:Hr.
  - destruct content as [text|]; [|discriminate].
    intros [= <-]. rewrite elem_of_update. split.
    + intros [Hin|Hin]; [by left|]. right. by exists text.
    + intros [Hin|(text' & [= <-] & _ & Hin)]; [by left|by right].
  - intros [= <-]. split; [by left|].
    by intros [Hin|(text & _ & Hfalse & _)].
Qed.

Lemma visit_all_Ok_elem (files : list (string * option string))
    (deps deps' : gset string) (x : string) :
  visit_all deps files = Ok deps' →
  (x ∈ deps' ↔
   x ∈ deps ∨ ∃ fname text, (fname, Some text) ∈ files
                            ∧ recognised fname = true
                            ∧ x ∈ _parse_dependencies fname text).
Proof.
  revert deps. induction files as [|[fname content] files IH]; intros deps.
  - simpl. intros [= <-]. split; [by left|].
    intros [Hin|(fname & text & Hf & _)]; [exact Hin|inversion Hf].
  - rewrite visit_all_cons.
    destruct (visit deps (fname, content)) as [deps1|e] eqn:Hvisit;
      [|discriminate].
    unfold bind. intros Hrest. rewrite (IH _ Hrest).
    rewrite (visit_Ok_elem _ _ _ _ x Hvisit). split.
    + intros [[Hin|(text & -> & Hr & Hx)]|(fname' & text & Hf & Hr & Hx)].
      * by left.
      * right. exists fname, text. split; [left|done].
      * right. exists fname', text. split; [by right|done].
    + intros [Hin|(fname' & text & Hf & Hr & Hx)]; [by left; left|].
      apply elem_of_cons in Hf as [[= -> <-]|Hf].
      * left. right. by exists text.
      * right. by exists fname', text.
Qed.

Lemma visit_all_Ok_readable (files : list (string * option string))
    (deps deps' : gset string) (fname : string) :
  visit_all deps files = Ok deps' → (fname, None) ∈ files →
  recognised fname = false.
Proof.
  revert deps. induction files as [|[fname' content] files IH]; intros deps.
  - intros _ Hf. inversion Hf.
  - rewrite visit_all_cons.
    destruct (visit deps (fname', content)) as [deps1|e] eqn:Hvisit;
      [|discriminate].
    unfold bind. intros Hrest Hf.
    apply elem_of_cons in Hf as [[= <- <-]|Hf]; [|by eapply IH].
    unfold visit in Hvisit. by destruct (recognised fname).
Qed.

Lemma visit_all_Raise (files : list (string * option string))
    (deps : gset string) (e : exn) :
  visit_all deps files = Raise e →
  e = OSError ∧ ∃ fname, (fname, None) ∈ files ∧ recognised fname = true.
Proof.
  revert deps. induction files as [|[fname content] files IH]; intros deps.
  - discriminate.
  - rewrite visit_all_cons.
    destruct (visit deps (fname, content)) as [deps1|e'] eqn:Hvisit.
    + unfold bind. intros Hrest. destruct (IH _ Hrest) as (-> & f & Hf & Hr).
      split; [done|]. exists f. split; [by right|done].
    + unfold bind. intros [= <-]. unfold visit in Hvisit.
      destruct (recognised fname) eqn:Hr; [|discriminate].
      destruct content; [discriminate|]. injection Hvisit as <-.
      split; [done|]. exists fname. split; [left|done].
Qed.

Lemma visit_all_Permutation (files files' : list (string * option string)) :
  files ≡ₚ files' → visit_all ∅ files = visit_all ∅ files'.
Proof.
  intros Hperm.
  destruct (visit_all ∅ files) as [d|e] eqn:Hrun,
           (visit_all ∅ files') as [d'|e'] eqn:Hrun'.
  - f_equal. apply set_eq. intros x.
    rewrite (visit_all_Ok_elem _ _ _ x Hrun), (visit_all_Ok_elem _ _ _ x Hrun').
    split; (intros [Hin|(fname & text & Hf & Hr & Hx)]; [by left|]);
      right; exists fname, text; (split; [|done]).
    + by rewrite <- Hperm.
    + by rewrite Hperm.
  - apply visit_all_Raise in Hrun' as (_ & fname & Hf & Hr).
    rewrite <- Hperm in Hf.
    by rewrite (visit_all_Ok_readable _ _ _ _ Hrun Hf) in Hr.
  - apply visit_all_Raise in Hrun as (_ & fname & Hf & Hr).
    rewrite Hperm in Hf.
    by rewrite (visit_all_Ok_readable _ _ _ _ Hrun' Hf) in Hr.
  - apply visit_all_Raise in Hrun as [-> _].
    by apply visit_all_Raise in Hrun' as [-> _].
Qed.

(** X1. Whenever [analyze] returns, the list it returns has no duplicates
    and holds exactly the names that [_parse_dependencies] extracts from the
    recognised files of the tree: a name is in the list exactly when some
    recognised file yields it. *)
Theorem analyze_is_the_union (fs : filesystem) (path : string)
    (names : list string) :
  analyze fs path = Ok names →
  NoDup names
  ∧ ∀ x, x ∈ names ↔
         ∃ fname text, (fname, Some text) ∈ concat (os_walk fs path)
                       ∧ recognised fname = true
                       ∧ x ∈ _parse_dependencies fname text.
Proof.
  unfold analyze, rmap.
  destruct (visit_all ∅ (concat (os_walk fs path))) as [deps|e] eqn:Hrun;
    [|discriminate].
  unfold bind. intros [= <-]. split; [apply NoDup_elements|].
  intros x. rewrite elem_of_elements, (visit_all_Ok_elem _ _ _ x Hrun).
  split; [|by right].
  intros [Hempty|Hin]; [by apply not_elem_of_empty in Hempty|exact Hin].
Qed.

Lemma analyze_is_the_union_witness :
  NoDup ["m"; "ZLIB"]
  ∧ ("m" ∈ ["m"; "ZLIB"] ↔
     ∃ fname text,
       (fname, Some text) ∈ concat (os_walk zlib_with_makefile_fs "/src")
       ∧ recognised fname = true ∧ "m" ∈ _parse_dependencies fname text).
Proof.
  assert (analyze zlib_with_makefile_fs "/src" = Ok ["m"; "ZLIB"]) as Hrun
    by (vm_compute; reflexivity).
  destruct (analyze_is_the_union zlib_with_makefile_fs "/src" _ Hrun)
    as [Hnd Hunion].
  split; [exact Hnd | exact (Hunion "m")].
Defined.

(** X2. [analyze] raises exactly when the tree holds a recognised file that
    cannot be opened, and then it raises [OSError]; a file with any other
    name is never opened, so it cannot make [analyze] fail. *)
Theorem analyze_raises_on_unreadable (fs : filesystem) (path : string) :
  (analyze fs path = Raise OSError ↔
   ∃ fname, (fname, None) ∈ concat (os_walk fs path)
            ∧ recognised fname = true)
  ∧ ∀ e, analyze fs path = Raise e → e = OSError.
Proof.
  unfold analyze, rmap.
  destruct (visit_all ∅ (concat (os_walk fs path))) as [deps|e] eqn:Hrun;
    unfold bind.
  - split; [|discriminate]. split; [discriminate|].
    intros (fname & Hf & Hr).
    by rewrite (visit_all_Ok_readable _ _ _ _ Hrun Hf) in Hr.
  - apply visit_all_Raise in Hrun as (-> & Hsome). split.
    + split; [by intros _|done].
    + by intros e [= <-].
Qed.



(** ** What a captured name looks like *)

Lemma keep_inv (g : bool) (x : ascii) (r : option found) (cap rest : string) :
  keep g x r = Some (cap, rest) →
  ∃ cap', r = Some (cap', rest) ∧ cap = if g then String x cap' else cap'.
Proof.
  destruct r as [[cap' rest']|]; [|discriminate]. simpl.
  intros [= <- <-]. by exists cap'.
Qed.

Lemma findall_from_elem (pat : pattern) (k : nat) (s x : string) :
  x ∈ findall_from pat k s →
  ∃ s' rest, match_at pat s' = Some (x, rest).
Proof.
  revert k. induction s as [|c s IH]; intros k; [by intros ?%elem_of_nil|].
  destruct k as [|k]; [|apply IH].
  change (findall_from pat 0 (String c s))
    with (match match_at pat (String c s) with
          | Some (cap, rest) =>
              cap :: findall_from pat
                       (String.length (String c s) - String.length rest - 1) s
          | None => findall_from pat 0 s
          end).
  destruct (match_at pat (String c s)) as [[cap rest]|] eqn:Hm; [|apply IH].
  intros [->|Hin]%elem_of_cons; [by exists (String c s), rest|by eapply IH].
Qed.

Section Captures.

Variable p : ascii → bool.

Lemma greedy_captures (q : ascii → bool) (g : bool)
    (k : string → option found) (s cap rest : string) :
  (∀ s cap rest, k s = Some (cap, rest) → all_chars p cap = true) →
  (g = true → ∀ c, q c = true → p c = true) →
  greedy q g k s = Some (cap, rest) → all_chars p cap = true.
Proof.
  intros Hk Hq. revert cap. induction s as [|x s IH]; intros cap; simpl.
  - apply Hk.
  - destruct (q x) eqn:Hx; [|apply Hk].
    destruct (keep g x (greedy q g k s)) as [[cap' rest']|] eqn:Hmore;
      [|apply Hk].
    intros [= <- <-]. apply keep_inv in Hmore as (cap'' & Hmore & ->).
    apply IH in Hmore. destruct g; [|exact Hmore].
    simpl. by rewrite (Hq eq_refl x Hx), Hmore.
Qed.

Lemma lazy_captures (q : ascii → bool) (g : bool)
    (k : string → option found) (s cap rest : string) :
  (∀ s cap rest, k s = Some (cap, rest) → all_chars p cap = true) →
  (g = true → ∀ c, q c = true → p c = true) →
  lazy q g k s = Some (cap, rest) → all_chars p cap = true.
Proof.
  intros Hk Hq. revert cap. induction s as [|x s IH]; intros cap.
  - rewrite lazy_nil. destruct (k "") as [[cap' rest']|] eqn:Hhere;
      [|discriminate]. intros [= <- <-]. by apply Hk in Hhere.
  - rewrite lazy_cons. destruct (k (String x s)) as [[cap' rest']|] eqn:Hhere.
    + intros [= <- <-]. by apply Hk in Hhere.
    + destruct (q x) eqn:Hx; [|discriminate].
      intros (cap' & Hmore & ->)%keep_inv. apply IH in Hmore.
      destruct g; [|exact Hmore]. simpl. by rewrite (Hq eq_refl x Hx), Hmore.
Qed.

Lemma match_at_captures (pat : pattern) (s cap rest : string) :
  captures p pat → match_at pat s = Some (cap, rest) →
  all_chars p cap = true.
Proof.
  revert s cap rest. induction pat as [|[g a] pat IH]; intros s cap rest Hc.
  - simpl. by intros [= <- _].
  - assert (captures p pat) as Hc' by (by destruct g; [destruct Hc|]).
    assert (match a with
            | Chr c => g = true → p c = true
            | One q | Opt q | Plus q | StarLazy q =>
                g = true → ∀ c, q c = true → p c = true
            end) as Ha
      by (destruct g; [destruct Hc as [Ha _]; by destruct a
                      | by destruct a]).
    destruct a as [c|q|q|q|q]; simpl.
    + destruct s as [|x s]; [discriminate|].
      destruct (Ascii.eqb_spec x c) as [->|]; [|discriminate].
      intros (cap' & Hm & ->)%keep_inv. apply (IH _ _ _ Hc') in Hm.
      destruct g; [|exact Hm]. simpl. by rewrite (Ha eq_refl), Hm.
    + destruct s as [|x s]; [discriminate|].
      destruct (q x) eqn:Hx; [|discriminate].
      intros (cap' & Hm & ->)%keep_inv. apply (IH _ _ _ Hc') in Hm.
      destruct g; [|exact Hm]. simpl. by rewrite (Ha eq_refl x Hx), Hm.
    + destruct s as [|x s]; [by apply IH|].
      destruct (q x) eqn:Hx; [|by apply IH].
      destruct (keep g x (match_at pat s)) as [[cap' rest']|] eqn:Htake;
        [|by apply IH].
      intros [= <- <-]. apply keep_inv in Htake as (cap'' & Hm & ->).
      apply (IH _ _ _ Hc') in Hm.
      destruct g; [|exact Hm]. simpl. by rewrite (Ha eq_refl x Hx), Hm.
    + destruct s as [|x s]; [discriminate|].
      destruct (q x) eqn:Hx; [|discriminate].
      intros (cap' & Hm & ->)%keep_inv.
      apply greedy_captures in Hm; [|intros ???; by apply IH|exact Ha].
      destruct g; [|exact Hm]. simpl. by rewrite (Ha eq_refl x Hx), Hm.
    + apply lazy_captures; [intros ???; by apply IH|exact Ha].
Qed.

End Captures.

Lemma keep_nonempty (g : bool) (x : ascii) (r : option found)
    (cap rest : string) :
  (∀ cap' rest', r = Some (cap', rest') → nonempty cap' = true) →
  keep g x r = Some (cap, rest) → nonempty cap = true.
Proof.
  intros Hr (cap' & Hm & ->)%keep_inv. destruct g; [done|by eapply Hr].
Qed.

Lemma greedy_nonempty (q : ascii → bool) (g : bool)
    (k : string → option found) (s cap rest : string) :
  (∀ s cap rest, k s = Some (cap, rest) → nonempty cap = true) →
  greedy q g k s = Some (cap, rest) → nonempty cap = true.
Proof.
  intros Hk. revert cap rest. induction s as [|x s IH]; intros cap rest; simpl.
  - apply Hk.
  - destruct (q x); [|apply Hk].
    destruct (keep g x (greedy q g k s)) as [[cap' rest']|] eqn:Hmore;
      [|apply Hk].
    intros [= <- <-]. revert Hmore. apply keep_nonempty. intros ??. apply IH.
Qed.

Lemma lazy_nonempty (q : ascii → bool) (g : bool)
    (k : string → option found) (s cap rest : string) :
  (∀ s cap rest, k s = Some (cap, rest) → nonempty cap = true) →
  lazy q g k s = Some (cap, rest) → nonempty cap = true.
Proof.
  intros Hk. revert cap rest. induction s as [|x s IH]; intros cap rest.
  - rewrite lazy_nil. destruct (k "") as [[cap' rest']|] eqn:Hhere;
      [|discriminate]. intros [= <- <-]. by apply Hk in Hhere.
  - rewrite lazy_cons. destruct (k (String x s)) as [[cap' rest']|] eqn:Hhere.
    + intros [= <- <-]. by apply Hk in Hhere.
    + destruct (q x); [|discriminate].
      apply keep_nonempty. intros ??. apply IH.
Qed.

Lemma match_at_nonempty (pat : pattern) (s cap rest : string) :
  grabs pat → match_at pat s = Some (cap, rest) → nonempty cap = true.
Proof.
  revert s cap rest. induction pat as [|[g a] pat IH]; intros s cap rest;
    [done|].
  destruct a as [c|q|q|q|q]; simpl.
  - intros Hg. destruct s as [|x s]; [discriminate|].
    destruct (Ascii.eqb x c); [|discriminate].
    destruct g; [by intros (cap' & _ & ->)%keep_inv|].
    apply keep_nonempty. intros ??. by apply IH.
  - intros Hg. destruct s as [|x s]; [discriminate|].
    destruct (q x); [|discriminate].
    destruct g; [by intros (cap' & _ & ->)%keep_inv|].
    apply keep_nonempty. intros ??. by apply IH.
  - intros Hg. assert (grabs pat) as Hg' by (by destruct g).
    destruct s as [|x s]; [by apply IH|].
    destruct (q x); [|by apply IH].
    destruct (keep g x (match_at pat s)) as [[cap' rest']|] eqn:Htake;
      [|by apply IH].
    intros [= <- <-]. revert Htake. apply keep_nonempty. intros ??.
    by apply IH.
  - intros Hg. destruct s as [|x s]; [discriminate|].
    destruct (q x); [|discriminate].
    destruct g; [by intros (cap' & _ & ->)%keep_inv|].
    apply keep_nonempty. intros ??. apply greedy_nonempty.
    intros ???. by apply IH.
  - intros Hg. assert (grabs pat) as Hg' by (by destruct g).
    apply lazy_nonempty. intros ???. by apply IH.
Qed.

Lemma word_is_word_or_hyphen (c : ascii) :
  is_word c = true → is_word_or_hyphen c = true.
Proof. unfold is_word_or_hyphen. by intros ->. Qed.

Lemma patterns_cases (fname : string) (pat : pattern) :
  patterns fname = Some pat →
  (String.eqb fname "setup.py" = true ∧ pat = setup_re true)
  ∨ (String.eqb fname "setup.py" = false ∧ captures is_word pat ∧ grabs pat).
Proof.
  unfold patterns.
  destruct (String.eqb_spec fname "CMakeLists.txt") as [->|_];
    [intros [= <-]; right; by repeat split|].
  destruct (String.eqb_spec fname "meson.build") as [->|_];
    [intros [= <-]; right; by repeat split|].
  destruct (String.eqb_spec fname "configure.ac") as [->|_];
    [intros [= <-]; right; by repeat split|].
  destruct (String.eqb_spec fname "Makefile") as [->|_];
    [intros [= <-]; right; by repeat split|].
  destruct (String.eqb fname "setup.py"); [|discriminate].
  intros [= <-]. by left.
Qed.

Lemma parse_name_shape (fname content x : string) :
  x ∈ _parse_dependencies fname content →
  nonempty x = true
  ∧ all_chars is_word_or_hyphen x = true
  ∧ (String.eqb fname "setup.py" = false → all_chars is_word x = true).
Proof.
  unfold _parse_dependencies. rewrite elem_of_elements.
  destruct (patterns fname) as [pat|] eqn:Hpat;
    [|by intros ?%not_elem_of_empty].
  apply patterns_cases in Hpat as [[Hsetup ->]|(Hother & Hcap & Hgrab)].
  - rewrite Hsetup, elem_of_fold_update.
    intros [Hempty|(m & _ & Hx)]; [by apply not_elem_of_empty in Hempty|].
    apply findall_from_elem in Hx as (s' & rest & Hm).
    split; [|split; [|discriminate]].
    + revert Hm. apply match_at_nonempty. exact I.
    + revert Hm. apply match_at_captures. by repeat split.
  - rewrite Hother, elem_of_update_empty.
    intros (s' & rest & Hm)%findall_from_elem.
    assert (all_chars is_word x = true) as Hword
      by (by eapply match_at_captures).
    split; [by eapply match_at_nonempty|]. split; [|done].
    revert Hword. apply all_chars_impl, word_is_word_or_hyphen.
Qed.



(** ** Descriptors without a match *)

Lemma find_None_cons (n : string) (x : ascii) (s : string) :
  find n (String x s) = None →
  starts_with n (String x s) = false ∧ find n s = None.
Proof.
  intros Hfind. destruct n as [|c n]; [discriminate Hfind|].
  simpl in Hfind.
  destruct (Ascii.eqb x c && starts_with n s) eqn:Hsw; [discriminate Hfind|].
  split; [exact Hsw|].
  by destruct (find (String c n) s).
Qed.

Lemma findall_absent (n : string) (pat : pattern) (s : string) :
  find n s = None → findall (lit n ++ pat) s = [].
Proof.
  induction s as [|x s IH]; [reflexivity|].
  intros [Hsw Hrest]%find_None_cons.
  rewrite findall_no_match by (by apply match_at_lit_fail). by apply IH.
Qed.

Lemma patterns_literal (fname : string) :
  match literal_of fname, patterns fname with
  | Some n, Some pat => ∃ tl, pat = lit n ++ tl
  | None, None => True
  | _, _ => False
  end.
Proof.
  unfold literal_of, patterns.
  repeat (match goal with
          | |- context [String.eqb fname ?name] =>
              destruct (String.eqb fname name)
          end; [eexists; reflexivity|]).
  exact I.
Qed.

Lemma parse_no_matches (fname content : string) (pat : pattern) :
  patterns fname = Some pat → findall pat content = [] →
  _parse_dependencies fname content = [].
Proof.
  intros Hpat Hnone. unfold _parse_dependencies. rewrite Hpat, Hnone.
  by destruct (String.eqb fname "setup.py").
Qed.

(** X5. A file in which the literal that opens the pattern of its name does
    not occur, an empty file for one, contributes no name; and neither does
    a file whose name has no pattern. *)
Theorem parse_without_literal (fname content : string) :
  (∀ n, literal_of fname = Some n → find n content = None) →
  _parse_dependencies fname content = [].
Proof.
  intros Habsent. pose proof (patterns_literal fname) as Hlit.
  destruct (literal_of fname) as [n|], (patterns fname) as [pat|] eqn:Hpat;
    try done.
  - destruct Hlit as [tl ->].
    apply (parse_no_matches _ _ _ Hpat), findall_absent. by apply Habsent.
  - unfold _parse_dependencies. by rewrite Hpat.
Qed.

Lemma parse_without_literal_witness :
  _parse_dependencies "Makefile" "all: main.o" = []
  ∧ _parse_dependencies "CMakeLists.txt" "" = []
  ∧ _parse_dependencies "README.md" "find_package(ZLIB)" = [].
Proof.
  split; [|split]; apply parse_without_literal; intros n [= <-]; reflexivity.
Defined.

Lemma starts_with_split (n s : string) :
  starts_with n s = true → ∃ s', s = n +:+ s'.
Proof.
  revert s. induction n as [|c n IH]; intros s; [by exists s|].
  destruct s as [|x s]; [discriminate|]. simpl.
  intros [Hx Hs]%andb_true_iff. apply Ascii.eqb_eq in Hx as ->.
  destruct (IH _ Hs) as [s' ->]. by exists s'.
Qed.

Lemma lazy_never (p q : ascii → bool) (g : bool)
    (k : string → option found) (s : string) :
  (∀ x s, q x = true → k (String x s) = None) → k "" = None →
  all_chars q s = true → lazy p g k s = None.
Proof.
  intros Hfail Hend. induction s as [|x s IH].
  - intros _. by rewrite lazy_nil, Hend.
  - intros Hs. simpl in Hs. apply andb_true_iff in Hs as [Hx Hs].
    rewrite lazy_cons, (Hfail _ _ Hx), (IH Hs). by destruct (p x).
Qed.

Lemma match_setup_unclosed (s : string) :
  all_chars not_bracket s = true → match_at (setup_re true) s = None.
Proof.
  intros Hs. destruct (starts_with "install_requires=[" s) eqn:Hsw;
    [|by apply match_at_lit_fail].
  apply starts_with_split in Hsw as [s' ->].
  rewrite all_chars_app in Hs. apply andb_true_iff in Hs as [_ Hs'].
  unfold setup_re. rewrite match_at_lit_app.
  change (match_at ([(true, StarLazy (dot true))] ++ lit "]") s')
    with (lazy (dot true) true (match_at (lit "]")) s').
  apply (lazy_never _ not_bracket); [|reflexivity|exact Hs'].
  intros x t Hx. unfold not_bracket in Hx. apply negb_true_iff in Hx.
  simpl. by rewrite Hx.
Qed.

(** X6. A [setup.py] without a closing bracket yields no name at all,
    whatever its [install_requires=[] lists hold: a list is read only up to
    a bracket that closes it. *)
Theorem setup_unclosed_list (content : string) :
  all_chars not_bracket content = true →
  _parse_dependencies "setup.py" content = [].
Proof.
  intros Hopen. apply (parse_no_matches _ _ (setup_re true)); [reflexivity|].
  induction content as [|x content IH]; [reflexivity|].
  rewrite findall_no_match by (by apply match_setup_unclosed).
  apply IH. simpl in Hopen. by apply andb_true_iff in Hopen as [_ ?].
Qed.

Lemma setup_unclosed_list_witness :
  _parse_dependencies "setup.py" "setup(install_requires=['requests', 'six'"
  = [].
Proof. apply setup_unclosed_list. reflexivity. Defined.

(** ** Names after a literal: Makefile, Meson, Autoconf *)

Lemma head_in_word_app (s t : string) :
  head_in is_word s = false → nonempty s = true →
  head_in is_word (s +:+ t) = false.
Proof. destruct s as [|x s]; [discriminate|]. by rewrite app_cons. Qed.

Lemma sites_text_head (n : string) (sites : list site) :
  sites_text n sites = "" ∨ ∃ rest, sites_text n sites = n +:+ rest.
Proof.
  destruct sites as [|[[o X] after] sites]; [by left|]. right.
  simpl. unfold site_text. simpl. rewrite !app_assoc. eauto.
Qed.

Lemma findall_after_site (n : string) (tl : pattern) (after : string)
    (sites : list site) :
  quiet n after = true →
  findall (lit n ++ tl) (after +:+ sites_text n sites)
    = findall (lit n ++ tl) (sites_text n sites).
Proof.
  intros Hq. destruct (sites_text_head n sites) as [->|[rest ->]].
  - rewrite app_nil_r. by apply quiet_end.
  - by apply findall_quiet_gap.
Qed.

Lemma head_after_site (n after : string) (sites : list site) :
  nonempty n = true →
  head_in is_word (after +:+ n) = false →
  head_in is_word (after +:+ sites_text n sites) = false.
Proof.
  intros Hn Hhead. destruct after as [|x after]; [|exact Hhead].
  rewrite app_nil_l in *.
  destruct (sites_text_head n sites) as [->|[rest ->]]; [reflexivity|].
  destruct n as [|c n]; [discriminate Hn|exact Hhead].
Qed.

Section Sites.

Variables (n : string) (tl : pattern) (opener : string → bool).

Hypothesis literal_nonempty : nonempty n = true.

(** Past an opener the rest of the pattern takes a run of word characters
    whole. *)
Hypothesis opener_passes :
  ∀ o X s, opener o = true → identifier X = true →
           head_in is_word s = false →
           match_at tl (o +:+ X +:+ s) = Some (X, s).

Lemma findall_sites (sites : list site) :
  forallb (site_ok n opener) sites = true →
  findall (lit n ++ tl) (sites_text n sites) = site_names sites.
Proof.
  induction sites as [|[[o X] after] sites IH]; intros Hok; [reflexivity|].
  simpl in Hok. apply andb_true_iff in Hok as [Hsite Hok].
  unfold site_ok in Hsite. simpl in Hsite.
  apply andb_true_iff in Hsite as [Hsite Hquiet].
  apply andb_true_iff in Hsite as [Hsite Hhead].
  apply andb_true_iff in Hsite as [Ho HX].
  apply negb_true_iff in Hhead.
  simpl. unfold site_text. simpl.
  assert ((n +:+ o +:+ X +:+ after) +:+ sites_text n sites
          = (n +:+ o +:+ X) +:+ after +:+ sites_text n sites) as ->
    by (by rewrite !app_assoc).
  rewrite (findall_match _ _ _ X).
  - f_equal. rewrite findall_after_site by exact Hquiet. by apply IH.
  - destruct n; [discriminate literal_nonempty|discriminate].
  - rewrite !app_assoc, match_at_lit_app.
    apply opener_passes; [exact Ho|exact HX|].
    by apply head_after_site.
Qed.

Lemma findall_gap_sites (gap : string) (sites : list site) :
  quiet n gap = true → forallb (site_ok n opener) sites = true →
  findall (lit n ++ tl) (gap +:+ sites_text n sites) = site_names sites.
Proof.
  intros Hgap Hok. rewrite findall_after_site by exact Hgap.
  by apply findall_sites.
Qed.

End Sites.

Lemma plus_word_run (X s : string) :
  identifier X = true → head_in is_word s = false →
  match_at [(true, Plus is_word)] (X +:+ s) = Some (X, s).
Proof.
  intros [Hne Hword]%andb_true_iff Hs.
  pose proof (plus_run is_word true [] X s "" s) as Hrun.
  rewrite app_nil_r in Hrun.
  apply Hrun; [by destruct X|exact Hword|exact Hs|reflexivity].
Qed.

Lemma no_opener_passes (o X s : string) :
  no_opener o = true → identifier X = true → head_in is_word s = false →
  match_at [(true, Plus is_word)] (o +:+ X +:+ s) = Some (X, s).
Proof.
  intros Ho. destruct o; [|discriminate]. rewrite app_nil_l.
  apply plus_word_run.
Qed.

Lemma quote_opener_passes (o X s : string) :
  quote_opener o = true → identifier X = true → head_in is_word s = false →
  match_at [(false, One is_quote); (true, Plus is_word)] (o +:+ X +:+ s)
    = Some (X, s).
Proof.
  intros Ho HX Hs. destruct o as [|q [|]]; try discriminate.
  simpl in Ho. rewrite app_cons, app_nil_l.
  change (match_at [(false, One is_quote); (true, Plus is_word)]
            (String q (X +:+ s)))
    with (if is_quote q then
            keep false q (match_at [(true, Plus is_word)] (X +:+ s))
          else None).
  rewrite Ho, keep_false. by apply plus_word_run.
Qed.

Lemma bracket_opener_passes (o X s : string) :
  bracket_opener o = true → identifier X = true → head_in is_word s = false →
  match_at [(false, Opt (Ascii.eqb "[")); (true, Plus is_word)]
           (o +:+ X +:+ s)
    = Some (X, s).
Proof.
  intros Ho HX Hs. pose proof (plus_word_run X s HX Hs) as Hrun.
  unfold bracket_opener in Ho. apply orb_true_iff in Ho as [Ho|Ho];
    apply String.eqb_eq in Ho as ->.
  - rewrite app_nil_l.
    apply andb_true_iff in HX as [Hne Hword].
    destruct X as [|x X]; [discriminate|].
    rewrite app_cons in *. simpl in Hword.
    apply andb_true_iff in Hword as [Hx _].
    change (match_at [(false, Opt (Ascii.eqb "[")); (true, Plus is_word)]
              (String x (X +:+ s)))
      with (if Ascii.eqb "[" x then
              match keep false x
                      (match_at [(true, Plus is_word)] (X +:+ s)) with
              | Some r => Some r
              | None => match_at [(true, Plus is_word)] (String x (X +:+ s))
              end
            else match_at [(true, Plus is_word)] (String x (X +:+ s))).
    destruct (Ascii.eqb_spec "[" x) as [<-|_]; [discriminate Hx|exact Hrun].
  - rewrite app_cons, app_nil_l.
    change (match_at [(false, Opt (Ascii.eqb "[")); (true, Plus is_word)]
              (String "[" (X +:+ s)))
      with (match keep false "["
                    (match_at [(true, Plus is_word)] (X +:+ s)) with
            | Some r => Some r
            | None => match_at [(true, Plus is_word)] (String "[" (X +:+ s))
            end).
    by rewrite keep_false, Hrun.
Qed.

Lemma parse_plain (fname content : string) (pat : pattern) (x : string) :
  patterns fname = Some pat → String.eqb fname "setup.py" = false →
  (x ∈ _parse_dependencies fname content ↔ x ∈ findall pat content).
Proof.
  intros Hpat Hother. unfold _parse_dependencies.
  by rewrite Hpat, Hother, elem_of_elements, elem_of_update_empty.
Qed.







(** ** The tracker between runs and across calls *)

Lemma new_helper_file (f : file_state) (h : helper) :
  new_helper f = Some h → track_file h = f ∧ trace h = [].
Proof.
  unfold new_helper. destruct (_load_tracked_packages f) as [j|e]; [|done].
  destruct (as_packages j) as [l|]; [|done]. by intros [= <-].
Qed.

Lemma new_helper_in_sync (f : file_state) (h : helper) :
  new_helper f = Some h → in_sync h.
Proof.
  intros Hnew. destruct (new_helper_file f h Hnew) as [Hf _].
  unfold in_sync, stored_packages. by rewrite Hf, Hnew.
Qed.

Lemma in_sync_saved (l : list string) (t : list event) :
  in_sync (Helper l (Holds (packages_doc l)) t).
Proof. unfold in_sync. simpl. apply stored_saved. Qed.

Lemma track_in_sync (pkg : string) (h : helper) :
  in_sync h → in_sync (track pkg h).
Proof.
  intros Hh. destruct (decide (pkg ∈ tracked_packages h)) as [Hin|Hout].
  - by rewrite track_present.
  - rewrite track_absent by exact Hout. apply in_sync_saved.
Qed.

Lemma in_sync_restart (h : helper) :
  in_sync h →
  new_helper (track_file h) = Some (Helper (tracked_packages h) (track_file h) []).
Proof.
  unfold in_sync, stored_packages. intros Hh.
  destruct (new_helper (track_file h)) as [h'|] eqn:Hnew; [|discriminate].
  destruct (new_helper_file _ _ Hnew) as [Hf Ht].
  injection Hh as Hl. destruct h' as [l' f' t']. simpl in *. by subst.
Qed.

(** The list and the file after a call of [track], read off the list and
    the file before it. *)
Lemma track_entries (pkg x : string) (h : helper) :
  entries x (tracked_packages (track pkg h)) =
    if decide (x = pkg) then max 1 (entries x (tracked_packages h))
    else entries x (tracked_packages h).
Proof.
  destruct (decide (pkg ∈ tracked_packages h)) as [Hin|Hout].
  - rewrite track_present by exact Hin.
    destruct (decide (x = pkg)) as [->|]; [|done].
    pose proof (entries_present pkg _ Hin). lia.
  - rewrite track_absent by exact Hout. simpl. unfold entries.
    rewrite filter_app, List.length_app.
    fold (entries x (tracked_packages h)).
    destruct (decide (x = pkg)) as [->|Hne].
    + rewrite filter_cons_True by done. rewrite (entries_absent pkg _ Hout).
      reflexivity.
    + rewrite filter_cons_False by congruence. simpl. lia.
Qed.

Section TrackerRuns.

Variable apt : list event → list string → Z.

Lemma install_step_in_sync h pkg :
  in_sync h → in_sync (install_step apt h pkg).
Proof. intros Hh. unfold install_step. by apply track_in_sync. Qed.

Lemma install_deps_in_sync pkgs h :
  in_sync h → in_sync (install_deps apt pkgs h).
Proof.
  unfold install_deps. revert h.
  induction pkgs as [|p ps IH]; intros h Hh; simpl; [exact Hh|].
  apply IH, install_step_in_sync, Hh.
Qed.

Lemma cleanup_in_sync h : in_sync (cleanup apt h).
Proof. unfold cleanup, emit. simpl. apply in_sync_saved. Qed.

Lemma install_step_entries h pkg x :
  entries x (tracked_packages (install_step apt h pkg)) =
    if decide (x = pkg) then max 1 (entries x (tracked_packages h))
    else entries x (tracked_packages h).
Proof. unfold install_step. by rewrite track_entries. Qed.

Lemma install_deps_entries pkgs h x :
  entries x (tracked_packages (install_deps apt pkgs h)) =
    if decide (x ∈ pkgs) then max 1 (entries x (tracked_packages h))
    else entries x (tracked_packages h).
Proof.
  unfold install_deps. revert h.
  induction pkgs as [|p ps IH]; intros h; simpl.
  - reflexivity.
  - rewrite IH, install_step_entries.
    destruct (decide (x = p)) as [->|Hne].
    + rewrite (decide_True (P := p ∈ p :: ps)) by left.
      destruct (decide (p ∈ ps)); lia.
    + destruct (decide (x ∈ ps)) as [Hin|Hout].
      * by rewrite decide_True by (by right).
      * rewrite decide_False; [done|].
        by intros [?|?]%elem_of_cons.
Qed.

Lemma install_deps_elem pkgs h x :
  x ∈ tracked_packages (install_deps apt pkgs h)
  ↔ x ∈ tracked_packages h ∨ x ∈ pkgs.
Proof.
  unfold install_deps. revert h.
  induction pkgs as [|p ps IH]; intros h; simpl.
  - split; [by left|]. by intros [?|?%elem_of_nil].
  - rewrite IH. unfold install_step.
    set (h2 := subprocess_run apt _ _).
    change (tracked_packages h) with (tracked_packages h2).
    destruct (decide (p ∈ tracked_packages h2)) as [Hin|Hout].
    + rewrite track_present by exact Hin. split.
      * intros [?|?]; [by left|by right; right].
      * intros [?|[ ->|?]%elem_of_cons]; [by left|by left|by right].
    + rewrite track_absent by exact Hout. simpl. rewrite elem_of_app.
      rewrite list_elem_of_singleton. split.
      * intros [[?| ->]|?]; [by left|right; left|by right; right].
      * intros [?|[ ->|?]%elem_of_cons];
          [by left; left|by left; right|by right].
Qed.

End TrackerRuns.




Lemma console_lines_app (t u : list event) :
  console_lines (t ++ u) = console_lines t ++ console_lines u.
Proof. apply omap_app. Qed.

Section TrackerEffects.

Variable apt : list event → list string → Z.

Lemma writes_install_step_present h pkg :
  pkg ∈ tracked_packages h →
  tracked_packages (install_step apt h pkg) = tracked_packages h
  ∧ writes (trace (install_step apt h pkg)) = writes (trace h).
Proof.
  intros Hin. unfold install_step.
  rewrite track_present by exact Hin. split; [reflexivity|].
  simpl. rewrite !writes_app. simpl. by rewrite !List.app_nil_r.
Qed.

Lemma writes_install_step_absent h pkg :
  pkg ∉ tracked_packages h →
  tracked_packages (install_step apt h pkg) = tracked_packages h ++ [pkg]
  ∧ writes (trace (install_step apt h pkg))
    = writes (trace h) ++ [packages_doc (tracked_packages h ++ [pkg])].
Proof.
  intros Hout. unfold install_step.
  rewrite track_absent by exact Hout. split; [reflexivity|].
  simpl. rewrite !writes_app. simpl. by rewrite !List.app_nil_r.
Qed.

Lemma writes_install_deps pkgs h :
  writes (trace (install_deps apt pkgs h)) =
    writes (trace h)
    ++ ((λ k, packages_doc (take k (tracked_packages (install_deps apt pkgs h))))
          <$> seq (S (length (tracked_packages h)))
                  (length (tracked_packages (install_deps apt pkgs h))
                   - length (tracked_packages h))).
Proof.
  revert h. induction pkgs as [|p ps IH]; intros h.
  - unfold install_deps. simpl. rewrite Nat.sub_diag. simpl.
    by rewrite List.app_nil_r.
  - change (install_deps apt (p :: ps) h)
      with (install_deps apt ps (install_step apt h p)).
    rewrite IH.
    destruct (decide (p ∈ tracked_packages h)) as [Hin|Hout].
    + destruct (writes_install_step_present h p Hin) as [-> ->]. reflexivity.
    + destruct (writes_install_step_absent h p Hout) as [Hl ->].
      pose proof (install_deps_keeps apt ps (install_step apt h p))
        as [more Hmore].
      rewrite Hl in *. rewrite Hmore.
      rewrite !List.length_app. simpl.
      replace (length (tracked_packages h) + 1 + length more
               - length (tracked_packages h)) with (S (length more)) by lia.
      replace (length (tracked_packages h) + 1 + length more
               - (length (tracked_packages h) + 1)) with (length more) by lia.
      simpl. rewrite <- List.app_assoc. f_equal. simpl. f_equal.
      * f_equal.
        replace (S (length (tracked_packages h)))
          with (length (tracked_packages h ++ [p]))
          by (rewrite List.length_app; simpl; lia).
        by rewrite take_app_length.
      * by rewrite Nat.add_1_r.
Qed.

Lemma consoles_remove_steps l h :
  console_lines (trace (foldl (remove_step apt) h l)) =
    console_lines (trace h)
      ++ ((λ pkg, "[yellow]Removing:[/yellow] " +:+ pkg) <$> l).
Proof.
  revert h. induction l as [|p ps IH]; intros h; simpl; [by rewrite List.app_nil_r|].
  rewrite IH. unfold remove_step. simpl.
  rewrite !console_lines_app. simpl. rewrite List.app_nil_r, <- List.app_assoc.
  reflexivity.
Qed.

Lemma writes_remove_steps l h :
  writes (trace (foldl (remove_step apt) h l)) = writes (trace h).
Proof.
  revert h. induction l as [|p ps IH]; intros h; simpl; [reflexivity|].
  rewrite IH. unfold remove_step. simpl.
  rewrite !writes_app. simpl. by rewrite !List.app_nil_r.
Qed.

Lemma commands_cleanup h :
  commands (trace (cleanup apt h)) =
    commands (trace h)
      ++ ((λ pkg, ["sudo"; "apt-get"; "remove"; "-y"; pkg])
            <$> tracked_packages h).
Proof.
  unfold cleanup. simpl. rewrite !commands_app. simpl.
  rewrite !List.app_nil_r. apply remove_steps_commands.
Qed.

End TrackerEffects.





(** ** The resolver and the command line *)

Lemma app_inj_same_length (a b s t : string) :
  String.length a = String.length b → a +:+ s = b +:+ t → a = b.
Proof.
  revert b. induction a as [|x a IH]; intros [|y b]; try discriminate;
    [reflexivity|].
  rewrite !app_cons. simpl. intros [= Hlen] [= <- Heq]. f_equal. by apply IH.
Qed.

Lemma app_inj_suffix (a b s : string) : a +:+ s = b +:+ s → a = b.
Proof.
  intros Heq. apply (app_inj_same_length a b s s); [|exact Heq].
  apply (f_equal String.length) in Heq. rewrite !length_app in Heq. lia.
Qed.

Lemma package_of_inj (X Y : string) :
  package_of X = package_of Y ↔ lower X = lower Y.
Proof.
  unfold package_of. split; [|by intros ->].
  intros Heq%String.app_inj. by apply app_inj_suffix in Heq.
Qed.



Lemma dict_set_map (items : list (string * string)) (k v : string) :
  (list_to_map (dict_set items k v) : gmap string string)
  = <[k := v]> (list_to_map items).
Proof.
  induction items as [|[k' v'] items IH]; [reflexivity|]. simpl.
  destruct (String.eqb_spec k' k) as [->|Hne]; simpl.
  - by rewrite insert_insert_eq.
  - rewrite IH. by apply insert_insert_ne.
Qed.

Lemma dict_set_keys (items : list (string * string)) (k v : string) :
  (dict_set items k v).*1 =
    if decide (k ∈ items.*1) then items.*1 else items.*1 ++ [k].
Proof.
  induction items as [|[k' v'] items IH]; [reflexivity|]. cbn [dict_set].
  destruct (String.eqb_spec k' k) as [->|Hne]; rewrite !fmap_cons; cbn [fst].
  - by rewrite decide_True by left.
  - rewrite IH. destruct (decide (k ∈ items.*1)) as [Hin|Hout].
    + by rewrite decide_True by (by right).
    + rewrite decide_False; [done|]. by intros [?|?]%elem_of_cons.
Qed.

Lemma dict_set_fresh (items : list (string * string)) (k v : string) :
  k ∉ items.*1 → dict_set items k v = items ++ [(k, v)].
Proof.
  induction items as [|[k' v'] items IH]; [reflexivity|].
  rewrite fmap_cons. cbn [fst dict_set].
  intros [Hne Hout]%not_elem_of_cons.
  destruct (String.eqb_spec k' k) as [->|_]; [done|]. by rewrite IH.
Qed.

Lemma dict_set_NoDup (items : list (string * string)) (k v : string) :
  NoDup items.*1 → NoDup (dict_set items k v).*1.
Proof.
  intros Hnd. rewrite dict_set_keys.
  destruct (decide (k ∈ items.*1)) as [Hin|Hout]; [exact Hnd|].
  apply NoDup_app. split; [exact Hnd|]. split; [|apply NoDup_singleton].
  by intros x Hx ->%list_elem_of_singleton.
Qed.

Lemma fold_dict_set_map (deps : list string) (items : list (string * string)) :
  (list_to_map
     (foldl (λ items dep, dict_set items dep ("lib" +:+ lower dep +:+ "-dev"))
            items deps) : gmap string string)
  = foldl assign (list_to_map items) deps.
Proof.
  revert items. induction deps as [|d ds IH]; intros items; [reflexivity|].
  simpl. by rewrite IH, dict_set_map.
Qed.

Lemma fold_dict_set_NoDup (deps : list string)
    (items : list (string * string)) :
  NoDup items.*1 →
  NoDup (foldl (λ items dep,
                  dict_set items dep ("lib" +:+ lower dep +:+ "-dev"))
               items deps).*1.
Proof.
  revert items. induction deps as [|d ds IH]; intros items Hnd; [exact Hnd|].
  simpl. by apply IH, dict_set_NoDup.
Qed.

Lemma fold_dict_set_fresh (deps : list string)
    (items : list (string * string)) :
  NoDup deps → (∀ d, d ∈ deps → d ∉ items.*1) →
  foldl (λ items dep, dict_set items dep ("lib" +:+ lower dep +:+ "-dev"))
        items deps
  = items ++ ((λ d, (d, package_of d)) <$> deps).
Proof.
  revert items. induction deps as [|d ds IH]; intros items Hnd Hfresh.
  - simpl. by rewrite List.app_nil_r.
  - apply NoDup_cons in Hnd as [Hd Hnd]. simpl.
    rewrite dict_set_fresh by (apply Hfresh; left).
    rewrite IH; [by rewrite <- List.app_assoc|exact Hnd|].
    intros d' Hd'. rewrite fmap_app. simpl.
    intros [Hin|Hin%list_elem_of_singleton]%elem_of_app.
    + revert Hin. apply Hfresh. by right.
    + by subst.
Qed.

Lemma mapping_items_NoDup (deps : list string) :
  NoDup deps → mapping_items deps = (λ d, (d, package_of d)) <$> deps.
Proof.
  intros Hnd. unfold mapping_items.
  rewrite fold_dict_set_fresh; [reflexivity|exact Hnd|].
  intros d _. apply not_elem_of_nil.
Qed.



Lemma analyze_NoDup (fs : filesystem) (path : string) (names : list string) :
  analyze fs path = Ok names → NoDup names.
Proof.
  unfold analyze, rmap.
  destruct (visit_all ∅ (concat (os_walk fs path))); [|discriminate].
  intros [= <-]. apply NoDup_elements.
Qed.

Lemma mapping_values (names : list string) :
  ((λ d, (d, package_of d)) <$> names).*2 = package_of <$> names.
Proof.
  induction names as [|d ds IH]; [reflexivity|].
  rewrite !fmap_cons. cbn [snd]. by rewrite IH.
Qed.



(** ** Files at any depth *)

Lemma node_induction (P : node → Prop) :
  (∀ content, P (File content)) →
  (∀ entries, Forall (λ e, P e.2) entries → P (Dir entries)) →
  ∀ n, P n.
Proof.
  intros Hfile Hdir. fix IH 1. intros [content|entries]; [apply Hfile|].
  apply Hdir. induction entries as [|[d child] entries IHentries];
    constructor; [apply IH|exact IHentries].
Qed.

Lemma files_of_elem (entries : list (string * node)) (name : string)
    (content : option string) :
  (name, content) ∈ files_of entries ↔ (name, File content) ∈ entries.
Proof.
  induction entries as [|[name' [content'|sub]] entries IH]; simpl.
  - split; by intros ?%elem_of_nil.
  - rewrite !elem_of_cons, IH. split; (intros [[= -> ->]|?]; [by left|by right]).
  - rewrite elem_of_cons, IH. split; [by right|].
    by intros [[=]|?].
Qed.

Lemma walk_Dir_elem (entries : list (string * node))
    (f : string * option string) :
  f ∈ concat (walk (Dir entries))
  ↔ f ∈ files_of entries
    ∨ ∃ d child, (d, child) ∈ entries ∧ f ∈ concat (walk child).
Proof.
  change (walk (Dir entries))
    with (files_of entries ::
          (fix below (es : list (string * node)) :=
             match es with
             | [] => []
             | (_, child) :: es' => walk child ++ below es'
             end) entries).
  rewrite concat_cons, elem_of_app. apply or_iff_compat_l.
  induction entries as [|[d0 child0] entries IH].
  - split; [by intros ?%elem_of_nil|]. by intros (d & child & ?%elem_of_nil & _).
  - rewrite concat_app, elem_of_app, IH. split.
    + intros [Hhere|(d & child & Hin & Hf)].
      * exists d0, child0. split; [left|done].
      * exists d, child. split; [by right|done].
    + intros (d & child & Hin & Hf).
      apply elem_of_cons in Hin as [[= -> ->]|Hin]; [by left|].
      right. by exists d, child.
Qed.

Lemma walk_holds (n : node) (f : string * option string) :
  f ∈ concat (walk n) ↔ holds n f.
Proof.
  split.
  - revert f. induction n as [content|entries IH] using node_induction;
      intros f; [by intros ?%elem_of_nil|].
    rewrite walk_Dir_elem. intros [Hhere|(d & child & Hin & Hf)].
    + destruct f as [name content]. apply holds_here.
      by apply files_of_elem.
    + eapply holds_below; [exact Hin|].
      rewrite Forall_forall in IH. by apply (IH (d, child) Hin).
  - induction 1 as [entries name content Hin|entries d child f Hin _ IH];
      rewrite walk_Dir_elem.
    + left. by apply files_of_elem.
    + right. by exists d, child.
Qed.

(** X18. [analyze] reads the recognised files of the whole tree: when it
    returns, a name is in its result exactly when some recognised file held
    by the root, in the root itself or in a directory at any depth below
    it, yields that name. *)
Theorem analyze_reads_every_depth (fs : filesystem) (path : string)
    (root : node) (names : list string) :
  fs path = Some root → analyze fs path = Ok names →
  ∀ x, x ∈ names ↔
       ∃ fname text, holds root (fname, Some text)
                     ∧ recognised fname = true
                     ∧ x ∈ _parse_dependencies fname text.
Proof.
  intros Hroot Hrun x. unfold analyze, rmap, os_walk in Hrun.
  rewrite Hroot in Hrun.
  destruct (visit_all ∅ (concat (walk root))) as [deps|e] eqn:Hvisit;
    [|discriminate].
  injection Hrun as <-.
  rewrite elem_of_elements, (visit_all_Ok_elem _ _ _ x Hvisit). split.
  - intros [Hempty|(fname & text & Hf & Hrest)];
      [by apply not_elem_of_empty in Hempty|].
    exists fname, text. split; [by apply walk_holds|exact Hrest].
  - intros (fname & text & Hf & Hrest). right.
    exists fname, text. split; [by apply walk_holds|exact Hrest].
Qed.

Lemma analyze_reads_every_depth_witness :
  "m" ∈ ["m"] ↔
  ∃ fname text,
    holds (Dir [("vendor", Dir [("zlib", Dir [("Makefile", File (Some "-lm"))])])])
          (fname, Some text)
    ∧ recognised fname = true ∧ "m" ∈ _parse_dependencies fname text.
Proof.
  apply (analyze_reads_every_depth
           (λ path,
              if String.eqb path "/deep" then
                Some (Dir [("vendor",
                            Dir [("zlib",
                                  Dir [("Makefile", File (Some "-lm"))])])])
              else None)
           "/deep"
           (Dir [("vendor", Dir [("zlib", Dir [("Makefile", File (Some "-lm"))])])])
           ["m"]).
  - reflexivity.
  - vm_compute. reflexivity.
Defined.
